(** * byronsbasement: the LED spatial index and the ceiling's indexing scopes

    A shallow embedding of [backend/led_locations.py] (classes [LED] and
    [LEDSpace], helper [_mask_for_radius]) and of the indexing helpers of
    [backend/ceiling.py] ([Ceiling.use_*] and [Ceiling.with_*]).

    Numbers.  Python [int]s are [Z].  Python [float]s are modelled by exact
    rationals [Q]: every arithmetic operation of the source is the exact one,
    and the theorems say nothing about IEEE rounding (one remark, on the
    length of [np.arange], evaluates binary64 arithmetic to show where
    rounding matters).  Two floats are the same cache key when they are
    numerically equal ([Qeq_bool]).

    Effects.  Methods are state transformers over [world] (the object's
    attributes together with the class-level [functools.lru_cache] stores)
    that either return or raise ([outcome]). *)

From Stdlib Require Import ZArith QArith Qround Qabs List Bool Lia Lqa.
From Stdlib Require Import Finite Floats.
Import ListNotations.

Set Implicit Arguments.

(* ===================================================================== *)
(** ** Python preliminaries *)
(* ===================================================================== *)

(** The exceptions the modelled code can raise by itself; [BlockError] stands
    for whatever a caller-supplied block raises. *)
Inductive exn : Type :=
| ZeroDivisionError
| AttributeError
| AssertionError
| IndexError
| BlockError (tag : nat).

(** [range(n)]: [0, 1, ..., n-1], empty when [n <= 0]. *)
Definition range (n : Z) : list Z := map Z.of_nat (seq 0 (Z.to_nat n)).

(** [len(l)] as a Python int. *)
Definition len {A : Type} (l : list A) : Z := Z.of_nat (length l).

(** [l[i]] for an index the loop guarantees to be in range. *)
Definition getitem (l : list Z) (i : Z) : Z := nth (Z.to_nat i) l 0%Z.

(** [a / b] on ints (true division), a float; every use has [b <> 0]: the
    divisor is a row count inside the loop over that row, or a length
    tested beforehand. *)
Definition truediv (a b : Z) : Q := inject_Z a / inject_Z b.

Definition Qltb (a b : Q) : bool := negb (Qle_bool b a).

(* ===================================================================== *)
(** ** class LED *)
(* ===================================================================== *)

Record LED : Type := mkLED { _x : Q; _y : Q; _index : Z }.

Definition get_x (led : LED) : Q := _x led.
Definition get_y (led : LED) : Q := _y led.
Definition as_tuple (led : LED) : Q * Q * Z := (_x led, _y led, _index led).

(* ===================================================================== *)
(** ** The external collaborators *)
(* ===================================================================== *)

Definition polygon : Type := list (Q * Q).

(** What the code takes from outside the repository: numpy's [cos] and [sin]
    on floats, and smartquadtree's test "this point passes the polygon mask".
    They are parameters of the whole development. *)
Class Externals : Type := {
  np_cos : Q -> Q;
  np_sin : Q -> Q;
  in_mask : polygon -> Q -> Q -> bool
}.

(** The box with corners [(l,b)], [(l,t)], [(r,t)], [(r,b)], as
    [get_LEDs_in_area] hands it to [set_mask]. *)
Definition box_mask (l r b t : Q) : polygon := [(l, b); (l, t); (r, t); (r, b)].

Definition in_box (l r b t px py : Q) : Prop :=
  l <= px /\ px <= r /\ b <= py /\ py <= t.

Definition same_polygon (p p' : polygon) : Prop :=
  Forall2 (fun a a' => fst a == fst a' /\ snd a == snd a') p p'.

(** What the spec says of these collaborators: a box mask selects exactly
    the points of the closed box ("returns every Light with x in
    [x-w/2, x+w/2] and y in [y-h/2, y+h/2], and no Light outside"), and
    the mask test depends on the numeric value of the vertices only. *)
Class ExternalsSpec (E : Externals) : Prop := {
  in_mask_box : forall l r b t px py,
    l <= r -> b <= t ->
    (in_mask (box_mask l r b t) px py = true <-> in_box l r b t px py);
  in_mask_proper : forall p p' px py,
    same_polygon p p' -> in_mask p px py = in_mask p' px py
}.

(* ===================================================================== *)
(** ** smartquadtree.Quadtree *)
(* ===================================================================== *)

(** Modelled from the spec: the third-party [smartquadtree.Quadtree], absent
    from the sources.  The spec describes it as "a 2D point-partitioning
    structure bounded to the unit square [0,1]x[0,1]" holding Lights, with a
    mask under which [elements()] enumerates the Lights inside a polygon.
    The model keeps the constructor's arguments, the inserted Lights in
    insertion order, and the current mask; the enumeration order of the real
    structure is not specified and no theorem below depends on it. *)
Record Quadtree : Type := mkQuadtree {
  qt_cx : Q; qt_cy : Q; qt_w : Q; qt_h : Q;
  qt_points : list LED;
  qt_mask : option polygon
}.

Definition Quadtree_new (cx cy w h : Q) : Quadtree :=
  mkQuadtree cx cy w h [] None.

(** The domain of the structure: the rectangle of width [w] and height [h]
    centred on [(cx, cy)]; for [Quadtree(0.5, 0.5, 1, 1)] the unit square. *)
Definition qt_contains (q : Quadtree) (px py : Q) : bool :=
  Qle_bool (qt_cx q - qt_w q / 2) px && Qle_bool px (qt_cx q + qt_w q / 2) &&
  Qle_bool (qt_cy q - qt_h q / 2) py && Qle_bool py (qt_cy q + qt_h q / 2).

(** [insert]: a point outside the domain is not stored. *)
Definition qt_insert (q : Quadtree) (led : LED) : Quadtree :=
  if qt_contains q (get_x led) (get_y led)
  then mkQuadtree (qt_cx q) (qt_cy q) (qt_w q) (qt_h q)
                  (qt_points q ++ [led]) (qt_mask q)
  else q.

Definition qt_set_mask (q : Quadtree) (m : option polygon) : Quadtree :=
  mkQuadtree (qt_cx q) (qt_cy q) (qt_w q) (qt_h q) (qt_points q) m.

(** [elements()]: the stored Lights that pass the current mask. *)
Definition qt_elements `{Externals} (q : Quadtree) : list LED :=
  match qt_mask q with
  | None => qt_points q
  | Some m => filter (fun led => in_mask m (get_x led) (get_y led)) (qt_points q)
  end.

(* ===================================================================== *)
(** ** functools.lru_cache *)
(* ===================================================================== *)

(** A cache key: the identity of [self] and the positional arguments. *)
Definition key : Type := (nat * list Q)%type.

Fixpoint args_eqb (a b : list Q) : bool :=
  match a, b with
  | [], [] => true
  | x :: a', y :: b' => Qeq_bool x y && args_eqb a' b'
  | _, _ => false
  end.

Definition key_eqb (k k' : key) : bool :=
  Nat.eqb (fst k) (fst k') && args_eqb (snd k) (snd k').

(** The store of one decorated function, most recently used entry first. *)
Definition lru (V : Type) : Type := list (key * V).

Definition maxsize : nat := 1000.

Fixpoint lru_find {V : Type} (k : key) (c : lru V) : option V :=
  match c with
  | [] => None
  | (k', v) :: c' => if key_eqb k k' then Some v else lru_find k c'
  end.

Fixpoint lru_remove {V : Type} (k : key) (c : lru V) : lru V :=
  match c with
  | [] => []
  | (k', v) :: c' => if key_eqb k k' then c' else (k', v) :: lru_remove k c'
  end.

(** A hit moves the entry to the most recent position. *)
Definition lru_touch {V : Type} (k : key) (v : V) (c : lru V) : lru V :=
  (k, v) :: lru_remove k c.

(** After a miss the result is stored unless the key appeared meanwhile;
    a full store drops its least recently used entry. *)
Definition lru_store {V : Type} (k : key) (v : V) (c : lru V) : lru V :=
  match lru_find k c with
  | Some _ => c
  | None => firstn maxsize ((k, v) :: c)
  end.

(* ===================================================================== *)
(** ** Returning or raising, over a mutable state *)
(* ===================================================================== *)

(** The result of running a method: the value it returned, or the exception
    it raised, each with the state the call left behind. *)
Inductive outcome (S A : Type) : Type :=
| Returned (a : A) (s : S)
| Raised (e : exn) (s : S).

Arguments Returned {S A} a s.
Arguments Raised {S A} e s.

Definition M (S A : Type) : Type := S -> outcome S A.

Definition ret {S A : Type} (a : A) : M S A := fun s => Returned a s.
Definition raise {S A : Type} (e : exn) : M S A := fun s => Raised e s.

Definition bind {S A B : Type} (m : M S A) (f : A -> M S B) : M S B :=
  fun s => match m s with
           | Returned a s' => f a s'
           | Raised e s' => Raised e s'
           end.

Definition get_state {S : Type} : M S S := fun s => Returned s s.
Definition put_state {S : Type} (s' : S) : M S unit := fun _ => Returned tt s'.

Declare Scope py_scope.
Delimit Scope py_scope with py.
Notation "x <- m ;; k" := (bind m (fun x => k))
  (at level 61, m at next level, right associativity) : py_scope.
Notation "m ;;; k" := (bind m (fun _ => k))
  (at level 61, right associativity) : py_scope.

Definition final_state {S A : Type} (o : outcome S A) : S :=
  match o with Returned _ s => s | Raised _ s => s end.

Definition returned_value {S A : Type} (o : outcome S A) : option A :=
  match o with Returned a _ => Some a | Raised _ _ => None end.

(* ===================================================================== *)
(** ** backend.util.distance_formula *)
(* ===================================================================== *)

(** A float known as the square root of a rational: [Sqrt q] is the real
    number [sqrt q].  Only comparisons are ever made on such values, and
    they are decided exactly on the radicands. *)
Record root : Type := Sqrt { radicand : Q }.

(** A non-negative number [m] seen as [sqrt (m * m)]. *)
Definition root_of_Q (m : Q) : root := Sqrt (m * m).

(** Modelled from the spec: [distance_formula] of [backend/util.py], absent
    from the sources; the spec gives it as "distance(x1,y1,x2,y2) -> float:
    standard Euclidean distance; no failure modes". *)
Definition distance_formula (x1 y1 x2 y2 : Q) : root :=
  Sqrt ((x2 - x1) * (x2 - x1) + (y2 - y1) * (y2 - y1)).

(** [d > m] for a distance [d] and a float [m]. *)
Definition root_gt (d : root) (m : Q) : bool :=
  Qltb m 0 || Qltb (m * m) (radicand d).

(** [d < d'] for two distances. *)
Definition root_lt (d d' : root) : bool := Qltb (radicand d) (radicand d').

(* ===================================================================== *)
(** ** _mask_for_radius *)
(* ===================================================================== *)

(** [np.pi], the double nearest to pi, as the rational it is. *)
Definition np_pi : Q := 884279719003555 # 281474976710656.

(** [np.arange(start, stop, step)]: [ceil((stop - start) / step)] values
    [start + k * step]. *)
Definition np_arange (start stop step : Q) : list Q :=
  map (fun k => start + inject_Z k * step)
      (range (Qceiling ((stop - start) / step))).

(** [l[i] = v] for [i >= 0]; out of range is an [IndexError]. *)
Fixpoint setitem {A : Type} (l : list A) (i : nat) (v : A) : option (list A) :=
  match l, i with
  | [], _ => None
  | _ :: l', O => Some (v :: l')
  | a :: l', S i' => option_map (cons a) (setitem l' i' v)
  end.

(** The point of the circle at angle [theta]. *)
Definition circle_point `{Externals} (x y radius theta : Q) : Q * Q :=
  (np_cos theta * radius + x, np_sin theta * radius + y).

(** One iteration of the loop body: [points[i] = (_x, _y); i += 1]. *)
Definition mask_step `{Externals} (x y radius : Q)
    (st : exn + (polygon * Z)) (theta : Q) : exn + (polygon * Z) :=
  match st with
  | inl e => inl e
  | inr (points, i) =>
      match setitem points (Z.to_nat i) (circle_point x y radius theta) with
      | Some points' => inr (points', (i + 1)%Z)
      | None => inl IndexError
      end
  end.

Definition _mask_for_radius `{Externals} (x y radius : Q) (number_points : Z)
  : exn + polygon :=
  let points := repeat (0, 0) (Z.to_nat number_points) in
  if (number_points =? 0)%Z then inl ZeroDivisionError
  else
    let step := (2 * np_pi) / inject_Z number_points in
    match fold_left (mask_step x y radius) (np_arange 0 (2 * np_pi) step)
                    (inr (points, 0%Z)) with
    | inl e => inl e
    | inr (points', _) => inr points'
    end.

(* ===================================================================== *)
(** ** class LEDSpace *)
(* ===================================================================== *)

(** The attributes of one [LEDSpace] object; [self_id] is its identity,
    which [lru_cache] hashes as part of every key. *)
Record LEDSpace : Type := mkLEDSpace {
  self_id : nat;
  _quadtree : option Quadtree;
  _saved_values : option (list LED)
}.

(** The three class-level caches, shared by all [LEDSpace] objects. *)
Record Caches : Type := mkCaches {
  area_cache : lru (list LED);
  radius_cache : lru (list LED);
  closest_cache : lru (option Z)
}.

Record world : Type := mkWorld { self : LEDSpace; caches : Caches }.

Definition set_quadtree (q : option Quadtree) (w : world) : world :=
  mkWorld (mkLEDSpace (self_id (self w)) q (_saved_values (self w))) (caches w).

Definition set_saved_values (v : option (list LED)) (w : world) : world :=
  mkWorld (mkLEDSpace (self_id (self w)) (_quadtree (self w)) v) (caches w).

Definition set_caches (c : Caches) (w : world) : world := mkWorld (self w) c.

Definition empty_caches : Caches := mkCaches [] [] [].

(** [LEDSpace.__init__], for the object of identity [id]. *)
Definition LEDSpace_init (id : nat) : LEDSpace :=
  mkLEDSpace id (Some (Quadtree_new (1 # 2) (1 # 2) 1 1)) None.

(** *** map_LEDs_in_zigzag *)

(** [row_height], where [1 / len(lights_per_row)] divides by zero on [[]]. *)
Definition row_height (lights_per_row : list Z) : exn + Q :=
  if (len lights_per_row =? 1)%Z then inr 1
  else if (len lights_per_row =? 0)%Z then inl ZeroDivisionError
  else inr (truediv 1 (len lights_per_row)).

(** The Light built in the body of the inner loop. *)
Definition zigzag_led (rh : Q) (i n j index : Z) : LED :=
  if (i mod 2 =? 0)%Z
  then mkLED (1 - truediv (j + 1) n)
             (inject_Z i * rh + truediv j n * rh) index
  else mkLED (truediv j n)
             (inject_Z i * rh + truediv j n * rh) index.

(** The inner loop [for j in range(lights_per_row[i])], on the pair of the
    quadtree and the running [index]. *)
Definition zigzag_row (rh : Q) (i n : Z) (st : Quadtree * Z) : Quadtree * Z :=
  fold_left (fun st j => (qt_insert (fst st) (zigzag_led rh i n j (snd st)),
                          (snd st + 1)%Z))
            (range n) st.

(** The outer loop [for i in range(len(lights_per_row))]. *)
Definition zigzag_rows (rh : Q) (lights_per_row : list Z)
    (st : Quadtree * Z) : Quadtree * Z :=
  fold_left (fun st i => zigzag_row rh i (getitem lights_per_row i) st)
            (range (len lights_per_row)) st.

Definition map_LEDs_in_zigzag (lights_per_row : list Z) : M world unit :=
  fun w =>
    let q0 := Quadtree_new (1 # 2) (1 # 2) 1 1 in
    let w1 := set_quadtree (Some q0) w in
    match row_height lights_per_row with
    | inl e => Raised e w1
    | inr rh =>
        Returned tt
          (set_quadtree (Some (fst (zigzag_rows rh lights_per_row (q0, 0%Z)))) w1)
    end.

(** *** restore_quadtree and save_quadtree_values_in_list *)

Definition restore_quadtree : M world unit :=
  fun w =>
    match _saved_values (self w) with
    | None => Returned tt w
    | Some vs =>
        let q := fold_left qt_insert vs (Quadtree_new (1 # 2) (1 # 2) 1 1) in
        Returned tt (set_saved_values None (set_quadtree (Some q) w))
    end.

Definition save_quadtree_values_in_list `{Externals} : M world unit :=
  fun w =>
    match _quadtree (self w), _saved_values (self w) with
    | None, Some _ => Returned tt w
    | None, None => Raised AttributeError w
    | Some q, _ =>
        let q1 := qt_set_mask q None in
        Returned tt
          (set_quadtree None (set_saved_values (Some (qt_elements q1)) w))
    end.

(** *** The decorated queries *)

(** [@lru_cache(maxsize=1000)] around [body], for the cache selected by
    [proj] and [upd]. *)
Definition lru_cached {V : Type} (proj : Caches -> lru V)
    (upd : lru V -> Caches -> Caches) (k : key) (body : M world V)
  : M world V :=
  fun w =>
    match lru_find k (proj (caches w)) with
    | Some v =>
        Returned v (set_caches (upd (lru_touch k v (proj (caches w))) (caches w)) w)
    | None =>
        match body w with
        | Returned v w' =>
            Returned v
              (set_caches (upd (lru_store k v (proj (caches w'))) (caches w')) w')
        | Raised e w' => Raised e w'
        end
    end.

Definition upd_area (c : lru (list LED)) (cs : Caches) : Caches :=
  mkCaches c (radius_cache cs) (closest_cache cs).
Definition upd_radius (c : lru (list LED)) (cs : Caches) : Caches :=
  mkCaches (area_cache cs) c (closest_cache cs).
Definition upd_closest (c : lru (option Z)) (cs : Caches) : Caches :=
  mkCaches (area_cache cs) (radius_cache cs) c.

(** [if self._quadtree is None: self.restore_quadtree()]. *)
Definition restore_if_detached : M world unit :=
  (w <- get_state ;;
   match _quadtree (self w) with
   | None => restore_quadtree
   | Some _ => ret tt
   end)%py.

(** [set_mask(m)], the loop over [elements()], [set_mask(None)]; calling
    [set_mask] on [None] is an [AttributeError]. *)
Definition collect_under_mask `{Externals} (m : polygon) : M world (list LED) :=
  (w <- get_state ;;
   match _quadtree (self w) with
   | None => raise AttributeError
   | Some q =>
       let res := qt_elements (qt_set_mask q (Some m)) in
       put_state (set_quadtree (Some (qt_set_mask q None)) w) ;;;
       ret res
   end)%py.

Definition get_LEDs_in_area_body `{Externals} (x y width height : Q)
  : M world (list LED) :=
  let left := x - width / 2 in
  let right := x + width / 2 in
  let bot := y - height / 2 in
  let top := y + height / 2 in
  (restore_if_detached ;;;
   collect_under_mask (box_mask left right bot top))%py.

Definition get_LEDs_in_area `{Externals} (x y width height : Q)
  : M world (list LED) :=
  (w <- get_state ;;
   lru_cached area_cache upd_area
     (self_id (self w), [x; y; width; height])
     (get_LEDs_in_area_body x y width height))%py.

Definition get_LEDs_in_radius_body `{Externals} (x y radius : Q)
  : M world (list LED) :=
  (restore_if_detached ;;;
   match _mask_for_radius x y radius 10 with
   | inl e => raise e
   | inr m => collect_under_mask m
   end)%py.

Definition get_LEDs_in_radius `{Externals} (x y radius : Q)
  : M world (list LED) :=
  (w <- get_state ;;
   lru_cached radius_cache upd_radius
     (self_id (self w), [x; y; radius])
     (get_LEDs_in_radius_body x y radius))%py.

(** The default of [max_distance]. *)
Definition default_max_distance : Q := 30 # 100.

(** One iteration of the scan over the candidates, on the pair
    [(closest, closest_distance)]. *)
Definition closest_step (x y max_distance : Q)
    (st : option LED * root) (led : LED) : option LED * root :=
  let distance := distance_formula x y (get_x led) (get_y led) in
  if root_gt distance max_distance then st
  else
    match fst st with
    | None => (Some led, distance)
    | Some _ =>
        if root_lt distance (snd st) then (Some led, distance) else st
    end.

Definition closest_scan (x y max_distance : Q) (results : list LED)
  : option Z :=
  let st := fold_left (closest_step x y max_distance) results
                      (None, root_of_Q (inject_Z 9999999)) in
  match fst st with
  | None => None
  | Some closest => Some (_index closest)
  end.

Definition get_closest_LED_index_body `{Externals} (x y max_distance : Q)
  : M world (option Z) :=
  (results <- get_LEDs_in_area x y (max_distance * 2) (max_distance * 2) ;;
   ret (closest_scan x y max_distance results))%py.

(** [max_distance = None] is a call that leaves the argument out: the body
    then runs with the default, and the key has two arguments only. *)
Definition get_closest_LED_index `{Externals} (x y : Q)
    (max_distance : option Q) : M world (option Z) :=
  (w <- get_state ;;
   match max_distance with
   | Some m =>
       lru_cached closest_cache upd_closest (self_id (self w), [x; y; m])
         (get_closest_LED_index_body x y m)
   | None =>
       lru_cached closest_cache upd_closest (self_id (self w), [x; y])
         (get_closest_LED_index_body x y default_max_distance)
   end)%py.

(** *** clear_caches *)

Definition clear_caches : M world unit :=
  fun w => Returned tt (set_caches empty_caches w).

(** *** Sequences of queries *)

(** A call of one of the three decorated queries, and what it returns. *)
Inductive query : Type :=
| QArea (x y width height : Q)
| QRadius (x y radius : Q)
| QClosest (x y : Q) (max_distance : option Q).

Inductive answer : Type :=
| Leds (res : list LED)
| Index (res : option Z).

Definition run_query `{Externals} (q : query) : M world answer :=
  match q with
  | QArea x y width height =>
      (res <- get_LEDs_in_area x y width height ;; ret (Leds res))%py
  | QRadius x y radius =>
      (res <- get_LEDs_in_radius x y radius ;; ret (Leds res))%py
  | QClosest x y max_distance =>
      (res <- get_closest_LED_index x y max_distance ;; ret (Index res))%py
  end.

Fixpoint run_queries `{Externals} (qs : list query) : M world (list answer) :=
  match qs with
  | [] => ret []
  | q :: qs' =>
      (a <- run_query q ;; rest <- run_queries qs' ;; ret (a :: rest))%py
  end.

(** [save_quadtree_values_in_list()] followed by [restore_quadtree()]. *)
Definition round_trip `{Externals} : M world unit :=
  (save_quadtree_values_in_list ;;; restore_quadtree)%py.

Fixpoint repeat_call {S : Type} (n : nat) (m : M S unit) : M S unit :=
  match n with
  | O => ret tt
  | S n' => (m ;;; repeat_call n' m)%py
  end.

(* ===================================================================== *)
(** ** class Ceiling: the indexing helpers *)
(* ===================================================================== *)

Module ceiling.

(** The indexing classes live in modules that are not part of the sources
    ([backend/linear_indexing.py] and its siblings): their constructors are
    parameters, each one free to raise, and [_led_spacing] reads the
    attribute of that name. *)
Class IndexingClasses : Type := {
  Pixels : Type;
  Indexing : Type;
  Spacing : Type;
  LinearIndexing : Pixels -> exn + Indexing;
  RowIndexing : Pixels -> list Z -> exn + Indexing;
  CartesianIndexing :
    Pixels -> list Z -> Q -> option Spacing -> exn + Indexing;
  PolarIndexing :
    Pixels -> list Z -> list Q -> Q -> option Spacing -> exn + Indexing;
  FloatCartesianIndexing :
    Pixels -> list Z -> Q -> option Spacing -> exn + Indexing;
  FloatPolarIndexing :
    Pixels -> list Z -> list Q -> Q -> option Spacing -> exn + Indexing;
  _led_spacing : Indexing -> Spacing
}.

Definition CEILING_ROW_ARRANGEMENT : list Z := [29; 29; 32; 29; 32; 28; 20]%Z.

Section Helpers.
Context `{IndexingClasses}.

Record Ceiling : Type := mkCeiling {
  _pixels : Pixels;
  _indexing : Indexing;
  _cached_led_spacing : option Spacing
}.

Definition set_indexing (ix : Indexing) (c : Ceiling) : Ceiling :=
  mkCeiling (_pixels c) ix (_cached_led_spacing c).

Definition set_cached_led_spacing (sp : option Spacing) (c : Ceiling)
  : Ceiling :=
  mkCeiling (_pixels c) (_indexing c) sp.

(** [self._indexing = <constructor call>]: nothing is assigned when the
    constructor raises. *)
Definition assign_indexing (mk : Ceiling -> exn + Indexing) : M Ceiling unit :=
  fun c => match mk c with
           | inl e => Raised e c
           | inr ix => Returned tt (set_indexing ix c)
           end.

(** [self._cached_led_spacing = self._indexing._led_spacing]. *)
Definition remember_led_spacing : M Ceiling unit :=
  fun c => Returned tt
             (set_cached_led_spacing (Some (_led_spacing (_indexing c))) c).

Definition use_linear : M Ceiling unit :=
  assign_indexing (fun c => LinearIndexing (_pixels c)).

Definition use_row (lights_per_row : list Z) : M Ceiling unit :=
  assign_indexing (fun c => RowIndexing (_pixels c) lights_per_row).

Definition use_cartesian (lights_per_row : list Z) (search_range : Q)
  : M Ceiling unit :=
  (assign_indexing (fun c =>
     CartesianIndexing (_pixels c) lights_per_row search_range
                       (_cached_led_spacing c)) ;;;
   remember_led_spacing)%py.

Definition use_polar (origin : list Q) (lights_per_row : list Z)
    (search_range : Q) : M Ceiling unit :=
  if Nat.eqb (length origin) 2
  then
    (assign_indexing (fun c =>
       PolarIndexing (_pixels c) lights_per_row origin search_range
                     (_cached_led_spacing c)) ;;;
     remember_led_spacing)%py
  else raise AssertionError.

Definition use_float_cartesian (lights_per_row : list Z) (effect_radius : Q)
  : M Ceiling unit :=
  (assign_indexing (fun c =>
     FloatCartesianIndexing (_pixels c) lights_per_row effect_radius
                            (_cached_led_spacing c)) ;;;
   remember_led_spacing)%py.

Definition use_float_polar (origin : list Q) (lights_per_row : list Z)
    (effect_radius : Q) : M Ceiling unit :=
  (assign_indexing (fun c =>
     FloatPolarIndexing (_pixels c) lights_per_row origin effect_radius
                        (_cached_led_spacing c)) ;;;
   remember_led_spacing)%py.

(** The shape shared by the six [with_*] helpers:
    [old_indexing = self._indexing; self.use_*(...); block(self);
     self._indexing = old_indexing]. *)
Definition with_strategy (use : M Ceiling unit) (block : M Ceiling unit)
  : M Ceiling unit :=
  (c <- get_state ;;
   let old_indexing := _indexing c in
   use ;;;
   block ;;;
   c' <- get_state ;;
   put_state (set_indexing old_indexing c'))%py.

Definition with_linear (block : M Ceiling unit) : M Ceiling unit :=
  with_strategy use_linear block.

Definition with_row (block : M Ceiling unit) : M Ceiling unit :=
  with_strategy (use_row CEILING_ROW_ARRANGEMENT) block.

Definition with_cartesian (block : M Ceiling unit)
    (lights_per_row : list Z) (search_range : Q) : M Ceiling unit :=
  with_strategy (use_cartesian lights_per_row search_range) block.

Definition with_polar (block : M Ceiling unit) (origin : list Q)
    (lights_per_row : list Z) (search_range : Q) : M Ceiling unit :=
  with_strategy (use_polar origin lights_per_row search_range) block.

Definition with_float_cartesian (block : M Ceiling unit)
    (lights_per_row : list Z) (effect_radius : Q) : M Ceiling unit :=
  with_strategy (use_float_cartesian lights_per_row effect_radius) block.

Definition with_float_polar (block : M Ceiling unit) (origin : list Q)
    (lights_per_row : list Z) (effect_radius : Q) : M Ceiling unit :=
  with_strategy (use_float_polar origin lights_per_row effect_radius) block.

(** The six helpers, each with the arguments of one call. *)
Inductive helper : Type :=
| WithLinear
| WithRow
| WithCartesian (lights_per_row : list Z) (search_range : Q)
| WithPolar (origin : list Q) (lights_per_row : list Z) (search_range : Q)
| WithFloatCartesian (lights_per_row : list Z) (effect_radius : Q)
| WithFloatPolar (origin : list Q) (lights_per_row : list Z)
                 (effect_radius : Q).

Definition call_helper (h : helper) (block : M Ceiling unit)
  : M Ceiling unit :=
  match h with
  | WithLinear => with_linear block
  | WithRow => with_row block
  | WithCartesian rows sr => with_cartesian block rows sr
  | WithPolar origin rows sr => with_polar block origin rows sr
  | WithFloatCartesian rows er => with_float_cartesian block rows er
  | WithFloatPolar origin rows er => with_float_polar block origin rows er
  end.

(** The [use_*] call a helper starts with. *)
Definition use_of (h : helper) : M Ceiling unit :=
  match h with
  | WithLinear => use_linear
  | WithRow => use_row CEILING_ROW_ARRANGEMENT
  | WithCartesian rows sr => use_cartesian rows sr
  | WithPolar origin rows sr => use_polar origin rows sr
  | WithFloatCartesian rows er => use_float_cartesian rows er
  | WithFloatPolar origin rows er => use_float_polar origin rows er
  end.

End Helpers.

(** Stand-ins for the indexing classes, for the examples: an indexing object
    is the name of its class with its layout, its [_led_spacing] the layout
    it was built for; no constructor raises. *)
Inductive sample_indexing : Type :=
| Linear
| Row (rows : list Z)
| Cartesian (rows : list Z)
| Polar (rows : list Z)
| FloatCartesian (rows : list Z)
| FloatPolar (rows : list Z).

Definition sample_rows (ix : sample_indexing) : list Z :=
  match ix with
  | Linear => []
  | Row rows | Cartesian rows | Polar rows
  | FloatCartesian rows | FloatPolar rows => rows
  end.

Definition sample_classes : IndexingClasses :=
  {| Pixels := unit;
     Indexing := sample_indexing;
     Spacing := list Z;
     LinearIndexing := fun _ => inr Linear;
     RowIndexing := fun _ rows => inr (Row rows);
     CartesianIndexing := fun _ rows _ _ => inr (Cartesian rows);
     PolarIndexing := fun _ rows _ _ _ => inr (Polar rows);
     FloatCartesianIndexing := fun _ rows _ _ => inr (FloatCartesian rows);
     FloatPolarIndexing := fun _ rows _ _ _ => inr (FloatPolar rows);
     _led_spacing := sample_rows |}.

(** A ceiling as [__init__] leaves it: linear indexing, no cached spacing. *)
Definition sample_ceiling : @Ceiling sample_classes :=
  @mkCeiling sample_classes tt Linear None.

End ceiling.

(* ===================================================================== *)
(** ** Notions used to state the properties *)
(* ===================================================================== *)

(** *** The Lights of a layout, as a list *)

(** The Lights the inner loop builds for row [i] of [n] Lights, when the
    running index is [index] at its start. *)
Definition row_leds (rh : Q) (i n index : Z) : list LED :=
  map (fun j => zigzag_led rh i n j (index + j)%Z) (range n).

(** The Lights built for the rows [rows], the first of them being row [i]. *)
Fixpoint zigzag_list (rh : Q) (i index : Z) (rows : list Z) : list LED :=
  match rows with
  | [] => []
  | n :: rest =>
      row_leds rh i n index ++
      zigzag_list rh (i + 1) (index + Z.max 0 n) rest
  end.

(** [sum(layout)]. *)
Definition sum (l : list Z) : Z := fold_right Z.add 0%Z l.

(** The half-open unit square. *)
Definition in_unit_square (led : LED) : Prop :=
  0 <= get_x led /\ get_x led < 1 /\ 0 <= get_y led /\ get_y led < 1.

(** The domain of [Quadtree(0.5, 0.5, 1, 1)]. *)
Definition in_domain (led : LED) : Prop :=
  qt_contains (Quadtree_new (1 # 2) (1 # 2) 1 1) (get_x led) (get_y led) = true.

Definition unit_domain (q : Quadtree) : Prop :=
  qt_cx q = 1 # 2 /\ qt_cy q = 1 # 2 /\ qt_w q = 1 /\ qt_h q = 1.

(** *** The Light set of an [LEDSpace] and the two lifecycle states *)

Definition attached (sp : LEDSpace) : Prop :=
  _quadtree sp <> None /\ _saved_values sp = None.

Definition detached (sp : LEDSpace) : Prop :=
  _quadtree sp = None /\ _saved_values sp <> None.

(** Both representations at once. *)
Definition both_populated (sp : LEDSpace) : Prop :=
  _quadtree sp <> None /\ _saved_values sp <> None.

(** The Lights a query works on: those of the quadtree when there is one,
    else the saved ones. *)
Definition lights (w : world) : list LED :=
  match _quadtree (self w), _saved_values (self w) with
  | Some q, _ => qt_points q
  | None, Some vs => vs
  | None, None => []
  end.

(** A usable [LEDSpace]: it has a quadtree or saved values, and the Lights
    it works on are in the domain of the quadtree. *)
Definition mapped (w : world) : Prop :=
  match _quadtree (self w), _saved_values (self w) with
  | Some q, _ => Forall in_domain (qt_points q)
  | None, Some vs => Forall in_domain vs
  | None, None => False
  end.

(** *** What a query computes from a Light set *)

Definition area_of `{Externals} (L : list LED) (x y width height : Q)
  : list LED :=
  filter (fun led =>
            in_mask (box_mask (x - width / 2) (x + width / 2)
                              (y - height / 2) (y + height / 2))
                    (get_x led) (get_y led)) L.

Definition radius_of `{Externals} (L : list LED) (x y radius : Q) : list LED :=
  match _mask_for_radius x y radius 10 with
  | inr m => filter (fun led => in_mask m (get_x led) (get_y led)) L
  | inl _ => []
  end.

Definition closest_of `{Externals} (L : list LED) (x y : Q)
    (max_distance : option Q) : option Z :=
  let m := match max_distance with
           | Some m => m
           | None => default_max_distance
           end in
  closest_scan x y m (area_of L x y (m * 2) (m * 2)).

(** The answer to [q] computed from the Light set [L], no cache involved. *)
Definition computed_from `{Externals} (L : list LED) (q : query) : answer :=
  match q with
  | QArea x y width height => Leds (area_of L x y width height)
  | QRadius x y radius => Leds (radius_of L x y radius)
  | QClosest x y max_distance => Index (closest_of L x y max_distance)
  end.

(** *** Caches that agree with a Light set *)

Definition args_eq (a b : list Q) : Prop := Forall2 Qeq a b.

(** Every entry stored for object [id] holds what its query computes from
    [L]. *)
Definition cache_agrees {V : Type} (id : nat) (c : lru V)
    (shape : list Q -> option V) : Prop :=
  forall k v, In (k, v) c -> fst k = id -> shape (snd k) = Some v.

Definition area_shape `{Externals} (L : list LED) (args : list Q)
  : option (list LED) :=
  match args with
  | [x; y; width; height] => Some (area_of L x y width height)
  | _ => None
  end.

Definition radius_shape `{Externals} (L : list LED) (args : list Q)
  : option (list LED) :=
  match args with
  | [x; y; radius] => Some (radius_of L x y radius)
  | _ => None
  end.

Definition closest_shape `{Externals} (L : list LED) (args : list Q)
  : option (option Z) :=
  match args with
  | [x; y] => Some (closest_of L x y None)
  | [x; y; m] => Some (closest_of L x y (Some m))
  | _ => None
  end.

(** No entry stored for object [id] was memoized against a Light set other
    than [L]. *)
Definition coherent_caches `{Externals} (id : nat) (L : list LED)
    (cs : Caches) : Prop :=
  cache_agrees id (area_cache cs) (area_shape L) /\
  cache_agrees id (radius_cache cs) (radius_shape L) /\
  cache_agrees id (closest_cache cs) (closest_shape L).

Definition coherent `{Externals} (w : world) : Prop :=
  coherent_caches (self_id (self w)) (lights w) (caches w).

(** *** The queries as functions of the Light set and the caches *)

(** What [@lru_cache] does around a computation whose result is [v]: the
    returned value and the new store. *)
Definition lru_lookup {V : Type} (k : key) (v : V) (c : lru V) : V * lru V :=
  match lru_find k c with
  | Some v' => (v', lru_touch k v' c)
  | None => (v, lru_store k v c)
  end.

Definition area_step `{Externals} (id : nat) (L : list LED) (cs : Caches)
    (x y width height : Q) : list LED * Caches :=
  let r := lru_lookup (id, [x; y; width; height])
                      (area_of L x y width height) (area_cache cs) in
  (fst r, upd_area (snd r) cs).

Definition radius_step `{Externals} (id : nat) (L : list LED) (cs : Caches)
    (x y radius : Q) : list LED * Caches :=
  let r := lru_lookup (id, [x; y; radius])
                      (radius_of L x y radius) (radius_cache cs) in
  (fst r, upd_radius (snd r) cs).

Definition closest_step_body `{Externals} (id : nat) (L : list LED)
    (cs : Caches) (x y m : Q) : option Z * Caches :=
  let a := area_step id L cs x y (m * 2) (m * 2) in
  (closest_scan x y m (fst a), snd a).

Definition closest_lookup `{Externals} (id : nat) (L : list LED) (cs : Caches)
    (k : key) (x y m : Q) : option Z * Caches :=
  match lru_find k (closest_cache cs) with
  | Some v => (v, upd_closest (lru_touch k v (closest_cache cs)) cs)
  | None =>
      let b := closest_step_body id L cs x y m in
      (fst b, upd_closest (lru_store k (fst b) (closest_cache (snd b))) (snd b))
  end.

Definition query_step `{Externals} (id : nat) (L : list LED) (cs : Caches)
    (q : query) : answer * Caches :=
  match q with
  | QArea x y width height =>
      let r := area_step id L cs x y width height in (Leds (fst r), snd r)
  | QRadius x y radius =>
      let r := radius_step id L cs x y radius in (Leds (fst r), snd r)
  | QClosest x y (Some m) =>
      let r := closest_lookup id L cs (id, [x; y; m]) x y m in
      (Index (fst r), snd r)
  | QClosest x y None =>
      let r := closest_lookup id L cs (id, [x; y]) x y default_max_distance in
      (Index (fst r), snd r)
  end.

Fixpoint queries_steps `{Externals} (id : nat) (L : list LED) (cs : Caches)
    (qs : list query) : list answer * Caches :=
  match qs with
  | [] => ([], cs)
  | q :: qs' =>
      let r := query_step id L cs q in
      let rest := queries_steps id L (snd r) qs' in
      (fst r :: fst rest, snd rest)
  end.

(** The Light [led] lies within Euclidean distance [m] of [(x, y)]. *)
Definition within (x y m : Q) (led : LED) : Prop :=
  0 <= m /\
  (get_x led - x) * (get_x led - x) + (get_y led - y) * (get_y led - y)
  <= m * m.

(** The square of the distance from [(x, y)] to [led]. *)
Definition sq_dist (x y : Q) (led : LED) : Q :=
  radicand (distance_formula x y (get_x led) (get_y led)).

(** What the scan of [get_closest_LED_index] has established after the
    candidates [seen]: none of them is within [m], or the candidate kept is
    one of them, is within [m], and no candidate within [m] is closer. *)
Definition scan_invariant (x y m : Q) (seen : list LED)
    (st : option LED * root) : Prop :=
  match fst st with
  | None => forall led, In led seen -> ~ within x y m led
  | Some c =>
      In c seen /\ within x y m c /\ radicand (snd st) == sq_dist x y c /\
      forall led, In led seen -> within x y m led ->
                  sq_dist x y c <= sq_dist x y led
  end.

(** *** The angles of the circle mask *)

(** The [k]-th value of [np.arange(0, 2 * np.pi, (2 * np.pi) / n)]. *)
Definition mask_angle (n k : Z) : Q :=
  0 + inject_Z k * ((2 * np_pi) / inject_Z n).

(** The polygon of [n] points on the circle, by increasing angle. *)
Definition circle_polygon `{Externals} (x y radius : Q) (n : Z) : polygon :=
  map (circle_point x y radius) (map (mask_angle n) (range n)).

(** *** The length of [np.arange] in binary64 *)

(** [np.pi] as the binary64 number it is. *)
Definition ieee_pi : float := 0x1.921fb54442d18p+1%float.

(** The quotient [(stop - start) / step] whose ceiling is the length of
    [np.arange(0, 2 * np.pi, (2 * np.pi) / n)], computed in binary64. *)
Definition ieee_arange_quotient (n : float) : float :=
  ((2 * ieee_pi - 0) / ((2 * ieee_pi) / n))%float.

(** *** Concrete collaborators and states, for the examples *)

(** A mask test that satisfies [ExternalsSpec]: the point lies between the
    extreme coordinates of the polygon's vertices. *)
Definition extent_in_mask (p : polygon) (px py : Q) : bool :=
  existsb (fun v => Qle_bool (fst v) px) p &&
  existsb (fun v => Qle_bool px (fst v)) p &&
  existsb (fun v => Qle_bool (snd v) py) p &&
  existsb (fun v => Qle_bool py (snd v)) p.

Definition poly_cos (a : Q) : Q := 1 - a * a / 2 + a * a * a * a / 24.
Definition poly_sin (a : Q) : Q := a - a * a * a / 6.

Definition sample_externals : Externals :=
  {| np_cos := poly_cos; np_sin := poly_sin; in_mask := extent_in_mask |}.

(** A process that has just created its first [LEDSpace]. *)
Definition fresh_world : world := mkWorld (LEDSpace_init 0) empty_caches.

(** The same after [map_LEDs_in_zigzag([2, 3])]. *)
Definition world_2_3 : world :=
  final_state (map_LEDs_in_zigzag [2; 3]%Z fresh_world).

(** A fresh [LEDSpace] mapped with [[1]], asked for the Light closest to
    (0, 0) and for the Lights of the whole square. *)
Definition queried_world : world :=
  final_state (@run_queries sample_externals
                 [QClosest 0 0 (Some (1 # 10)); QArea (1 # 2) (1 # 2) 1 1]
                 (final_state (map_LEDs_in_zigzag [1]%Z fresh_world))).

(** The same object mapped again, with [[2, 3]]. *)
Definition remapped_world : world :=
  final_state (map_LEDs_in_zigzag [2; 3]%Z queried_world).

(** The closed box as a boolean test. *)
Definition in_box_b (l r b t px py : Q) : bool :=
  Qle_bool l px && Qle_bool px r && Qle_bool b py && Qle_bool py t.

(** What a method leaves untouched when it only rebuilds the quadtree. *)
Definition same_view (w w' : world) : Prop :=
  self_id (self w') = self_id (self w) /\
  lights w' = lights w /\
  mapped w'.

(** Two scans with numerically equal arguments agree on the candidate kept
    and on the value of its distance. *)
Definition same_scan_state (st st' : option LED * root) : Prop :=
  fst st = fst st' /\ radicand (snd st) == radicand (snd st').

(** The two-state lifecycle: attached or detached. *)
Definition lifecycle (sp : LEDSpace) : Prop := attached sp \/ detached sp.

(** Running the monadic plumbing of a method on a known state. *)
Ltac run_py :=
  repeat (progress (unfold bind, ret, raise, get_state, put_state,
                      restore_if_detached, restore_quadtree,
                      collect_under_mask; simpl)).

(* ===================================================================== *)
(** ** Further notions: sequences of calls, positions, cache sizes *)
(* ===================================================================== *)

(** *** Method calls on an [LEDSpace] *)

Inductive call : Type :=
| CallMap (lights_per_row : list Z)
| CallSave
| CallRestore
| CallClear
| CallQuery (q : query).

Definition run_call `{Externals} (c : call) : M world unit :=
  match c with
  | CallMap l => map_LEDs_in_zigzag l
  | CallSave => save_quadtree_values_in_list
  | CallRestore => restore_quadtree
  | CallClear => clear_caches
  | CallQuery q => (_ <- run_query q ;; ret tt)%py
  end.

(** The state after a sequence of calls, by a caller that goes on after an
    exception. *)
Fixpoint after_calls `{Externals} (cs : list call) (w : world) : world :=
  match cs with
  | [] => w
  | c :: cs' => after_calls cs' (final_state (run_call c w))
  end.

(** The invariant of an [LEDSpace]: a quadtree or saved values, and every
    stored or saved Light in the domain of the quadtree. *)
Definition sound (w : world) : Prop :=
  mapped w /\
  match _saved_values (self w) with
  | Some vs => Forall in_domain vs
  | None => True
  end.

(** What a query may do to the attributes of the object: nothing, or put a
    quadtree in place, clearing the saved values it was rebuilt from. *)
Definition query_effect (sp sp' : LEDSpace) : Prop :=
  sp' = sp \/
  (self_id sp' = self_id sp /\
   _quadtree sp' <> None /\
   _saved_values sp' = match _quadtree sp with
                       | Some _ => _saved_values sp
                       | None => None
                       end).

(** No cache holds more than [maxsize] entries. *)
Definition caches_bounded (cs : Caches) : Prop :=
  (length (area_cache cs) <= maxsize)%nat /\
  (length (radius_cache cs) <= maxsize)%nat /\
  (length (closest_cache cs) <= maxsize)%nat.

(** *** Where a row starts *)

(** The index of the first Light of row [i]: the Lights of the rows before,
    a row with a non-positive count having none. *)
Definition row_start (l : list Z) (i : nat) : Z :=
  sum (map (Z.max 0) (firstn i l)).

(** The order in which the strip climbs: by index and by height. *)
Definition climbs (a b : LED) : Prop :=
  (_index a < _index b)%Z /\ get_y a < get_y b.

(** *** Rational points of the unit circle *)

(** Collaborators whose [cos] and [sin] satisfy [cos^2 + sin^2 = 1] exactly:
    the rational parametrisation of the circle. *)
Definition circle_cos (a : Q) : Q := (1 - a * a) / (1 + a * a).
Definition circle_sin (a : Q) : Q := (2 * a) / (1 + a * a).

Definition circle_externals : Externals :=
  {| np_cos := circle_cos; np_sin := circle_sin; in_mask := extent_in_mask |}.

(** *** The helpers of [Ceiling] that build a spatial index *)

Definition spatial {IC : ceiling.IndexingClasses} (h : ceiling.helper) : bool :=
  match h with
  | ceiling.WithLinear | ceiling.WithRow => false
  | _ => true
  end.


(* ===================================================================== *)
(** * Properties *)
(* ===================================================================== *)

(** ** Ranges and true division *)

Lemma range_nil (n : Z) : (n <= 0)%Z -> range n = [].
Proof.
  intros Hn. unfold range. replace (Z.to_nat n) with O by lia. reflexivity.
Qed.

Lemma range_length (n : Z) : length (range n) = Z.to_nat n.
Proof. unfold range. rewrite length_map, length_seq. reflexivity. Qed.

Lemma in_range (n j : Z) : In j (range n) <-> (0 <= j < n)%Z.
Proof.
  unfold range. rewrite in_map_iff. split.
  - intros (k & <- & Hk). apply in_seq in Hk. lia.
  - intros Hj. exists (Z.to_nat j). split; [lia|]. apply in_seq. lia.
Qed.

Lemma truediv_nonneg (a b : Z) : (0 <= a)%Z -> (0 < b)%Z -> 0 <= truediv a b.
Proof.
  intros Ha Hb. unfold truediv. apply Qle_shift_div_l.
  - change 0 with (inject_Z 0). rewrite <- Zlt_Qlt. exact Hb.
  - rewrite Qmult_0_l. change 0 with (inject_Z 0). rewrite <- Zle_Qle. exact Ha.
Qed.

Lemma truediv_pos (a b : Z) : (0 < a)%Z -> (0 < b)%Z -> 0 < truediv a b.
Proof.
  intros Ha Hb. unfold truediv. apply Qlt_shift_div_l.
  - change 0 with (inject_Z 0). rewrite <- Zlt_Qlt. exact Hb.
  - rewrite Qmult_0_l. change 0 with (inject_Z 0). rewrite <- Zlt_Qlt. exact Ha.
Qed.

Lemma truediv_lt_1 (a b : Z) : (a < b)%Z -> (0 < b)%Z -> truediv a b < 1.
Proof.
  intros Ha Hb. unfold truediv. apply Qlt_shift_div_r.
  - change 0 with (inject_Z 0). rewrite <- Zlt_Qlt. exact Hb.
  - rewrite Qmult_1_l. rewrite <- Zlt_Qlt. exact Ha.
Qed.

Lemma truediv_le_1 (a b : Z) : (a <= b)%Z -> (0 < b)%Z -> truediv a b <= 1.
Proof.
  intros Ha Hb. unfold truediv. apply Qle_shift_div_r.
  - change 0 with (inject_Z 0). rewrite <- Zlt_Qlt. exact Hb.
  - rewrite Qmult_1_l. rewrite <- Zle_Qle. exact Ha.
Qed.

Lemma truediv_same (b : Z) : (0 < b)%Z -> truediv 1 b * inject_Z b == 1.
Proof.
  intros Hb. unfold truediv. field.
  intros H. change 0 with (inject_Z 0) in H. rewrite inject_Z_injective in H. lia.
Qed.

(** ** Inserting into the quadtree *)

Lemma unit_domain_new : unit_domain (Quadtree_new (1 # 2) (1 # 2) 1 1).
Proof. repeat split. Qed.

Lemma in_unit_square_in_domain (led : LED) :
  in_unit_square led -> in_domain led.
Proof.
  intros (Hx0 & Hx1 & Hy0 & Hy1). unfold in_domain, qt_contains. simpl.
  rewrite !andb_true_iff, !Qle_bool_iff.
  assert (E : 1 / 2 == 1 # 2) by reflexivity. rewrite !E.
  split; [split; [split|]|]; lra.
Qed.

Lemma qt_insert_stored (q : Quadtree) (led : LED) :
  unit_domain q -> in_domain led ->
  qt_points (qt_insert q led) = qt_points q ++ [led] /\
  unit_domain (qt_insert q led) /\
  qt_mask (qt_insert q led) = qt_mask q.
Proof.
  intros (H1 & H2 & H3 & H4) Hd. unfold qt_insert.
  unfold in_domain, qt_contains in Hd. simpl in Hd.
  unfold qt_contains. rewrite H1, H2, H3, H4, Hd. simpl.
  repeat split; assumption.
Qed.

Lemma fold_insert_stored (vs : list LED) (q : Quadtree) :
  unit_domain q -> Forall in_domain vs ->
  qt_points (fold_left qt_insert vs q) = qt_points q ++ vs /\
  unit_domain (fold_left qt_insert vs q) /\
  qt_mask (fold_left qt_insert vs q) = qt_mask q.
Proof.
  revert q. induction vs as [|v vs IH]; intros q Hq Hvs; simpl.
  - rewrite app_nil_r. auto.
  - inversion Hvs as [|? ? Hv Hvs']; subst.
    destruct (qt_insert_stored Hq Hv) as (Hp & Hu & Hm).
    destruct (IH _ Hu Hvs') as (Hp' & Hu' & Hm').
    rewrite Hp', Hp, <- app_assoc, Hm', Hm. auto.
Qed.

(** ** The two loops of [map_LEDs_in_zigzag] *)

Lemma zigzag_row_eq (rh : Q) (i n : Z) (q : Quadtree) (index : Z) :
  zigzag_row rh i n (q, index) =
  (fold_left qt_insert (row_leds rh i n index) q, (index + Z.max 0 n)%Z).
Proof.
  unfold zigzag_row, row_leds, range.
  replace (Z.max 0 n) with (Z.of_nat (Z.to_nat n)) by lia.
  generalize (Z.to_nat n) as m. intros m.
  assert (G : forall a q0,
    fold_left (fun st j => (qt_insert (fst st) (zigzag_led rh i n j (snd st)),
                            (snd st + 1)%Z))
              (map Z.of_nat (seq a m)) (q0, (index + Z.of_nat a)%Z) =
    (fold_left qt_insert
       (map (fun j => zigzag_led rh i n j (index + j)%Z)
            (map Z.of_nat (seq a m))) q0,
     (index + Z.of_nat (a + m))%Z)).
  { induction m as [|m IH]; intros a q0; simpl.
    - rewrite Nat.add_0_r. reflexivity.
    - replace (index + Z.of_nat a + 1)%Z with (index + Z.of_nat (S a))%Z by lia.
      rewrite IH. do 2 f_equal. lia. }
  specialize (G 0%nat q). simpl in G. rewrite Z.add_0_r in G. exact G.
Qed.

Lemma zigzag_rows_from (rh : Q) (suf pre : list Z) (q : Quadtree) (index : Z) :
  fold_left (fun st i => zigzag_row rh i (getitem (pre ++ suf) i) st)
            (map Z.of_nat (seq (length pre) (length suf))) (q, index) =
  (fold_left qt_insert (zigzag_list rh (len pre) index suf) q,
   (index + sum (map (Z.max 0) suf))%Z).
Proof.
  revert pre q index. induction suf as [|n rest IH]; intros pre q index.
  - simpl. rewrite Z.add_0_r. reflexivity.
  - cbn [length seq map fold_left zigzag_list sum fold_right].
    assert (Hn : getitem (pre ++ n :: rest) (Z.of_nat (length pre)) = n).
    { unfold getitem. rewrite Nat2Z.id, app_nth2, Nat.sub_diag by lia.
      reflexivity. }
    rewrite Hn, zigzag_row_eq.
    specialize (IH (pre ++ [n]) (fold_left qt_insert (row_leds rh (len pre) n index) q)
                   (index + Z.max 0 n)%Z).
    rewrite <- app_assoc in IH. simpl in IH.
    rewrite length_app in IH. simpl in IH.
    rewrite Nat.add_1_r in IH. fold (len pre). rewrite IH.
    rewrite fold_left_app. f_equal.
    + do 2 f_equal. unfold len. rewrite length_app. simpl. lia.
    + fold (sum (map (Z.max 0) rest)). lia.
Qed.

Lemma zigzag_rows_eq (rh : Q) (l : list Z) (q : Quadtree) :
  zigzag_rows rh l (q, 0%Z) =
  (fold_left qt_insert (zigzag_list rh 0 0 l) q, sum (map (Z.max 0) l)).
Proof.
  unfold zigzag_rows, range, len. rewrite Nat2Z.id.
  exact (zigzag_rows_from rh l [] q 0).
Qed.

(** ** Where the Lights are *)

Lemma row_height_cases (l : list Z) :
  (l = [] /\ row_height l = inl ZeroDivisionError) \/
  (l <> [] /\ exists rh, row_height l = inr rh /\ 0 < rh /\ rh * inject_Z (len l) <= 1).
Proof.
  unfold row_height. destruct l as [|a [|b l']].
  - left. split; reflexivity.
  - right. split; [discriminate|]. exists 1. simpl. repeat split; try lra.
    unfold len. simpl. change (inject_Z 1) with 1. lra.
  - right. split; [discriminate|]. set (l := a :: b :: l').
    assert (Hl : (2 <= len l)%Z) by (unfold len, l; simpl length; lia).
    destruct (len l =? 1)%Z eqn:E1; [apply Z.eqb_eq in E1; lia|].
    destruct (len l =? 0)%Z eqn:E0; [apply Z.eqb_eq in E0; lia|].
    eexists. split; [reflexivity|]. split.
    + apply truediv_pos; lia.
    + rewrite truediv_same by lia. lra.
Qed.

Lemma zigzag_led_in_unit_square (rh : Q) (N i n j index : Z) :
  0 < rh -> rh * inject_Z N <= 1 ->
  (0 <= i < N)%Z -> (0 <= j < n)%Z ->
  in_unit_square (zigzag_led rh i n j index).
Proof.
  intros Hrh HN Hi Hj.
  assert (Hq0 : 0 <= truediv j n) by (apply truediv_nonneg; lia).
  assert (Hq1 : truediv j n < 1) by (apply truediv_lt_1; lia).
  assert (Hs0 : 0 < truediv (j + 1) n) by (apply truediv_pos; lia).
  assert (Hs1 : truediv (j + 1) n <= 1) by (apply truediv_le_1; lia).
  assert (Hy0 : 0 <= truediv j n * rh) by (apply Qmult_le_0_compat; lra).
  assert (Hy1 : truediv j n * rh < 1 * rh)
    by (apply Qmult_lt_compat_r; assumption).
  assert (Hi0 : 0 <= inject_Z i * rh).
  { apply Qmult_le_0_compat; [|lra].
    change 0 with (inject_Z 0). rewrite <- Zle_Qle. lia. }
  assert (Hi1 : inject_Z i * rh <= inject_Z (N - 1) * rh).
  { apply Qmult_le_compat_r; [|lra]. rewrite <- Zle_Qle. lia. }
  assert (HN1 : inject_Z (N - 1) * rh == rh * inject_Z N - rh).
  { unfold Z.sub. rewrite inject_Z_plus. simpl inject_Z. ring. }
  unfold in_unit_square, zigzag_led.
  destruct (i mod 2 =? 0)%Z; unfold get_x, get_y; simpl; repeat split; lra.
Qed.

Lemma row_leds_in_unit_square (rh : Q) (N i n index : Z) :
  0 < rh -> rh * inject_Z N <= 1 -> (0 <= i < N)%Z ->
  Forall in_unit_square (row_leds rh i n index).
Proof.
  intros Hrh HN Hi. unfold row_leds. apply Forall_forall.
  intros led Hin. apply in_map_iff in Hin. destruct Hin as (j & <- & Hj).
  apply in_range in Hj. eapply zigzag_led_in_unit_square; eauto.
Qed.

Lemma zigzag_list_in_unit_square (rh : Q) (N : Z) (rows : list Z) (i index : Z) :
  0 < rh -> rh * inject_Z N <= 1 -> (0 <= i)%Z -> (i + len rows <= N)%Z ->
  Forall in_unit_square (zigzag_list rh i index rows).
Proof.
  intros Hrh HN. revert i index.
  induction rows as [|n rest IH]; intros i index Hi Hlen; simpl.
  - constructor.
  - unfold len in Hlen. simpl length in Hlen.
    apply Forall_app. split.
    + eapply row_leds_in_unit_square; eauto. lia.
    + apply IH; unfold len; lia.
Qed.

Lemma row_leds_index (rh : Q) (i n index : Z) :
  map _index (row_leds rh i n index) = map (Z.add index) (range n).
Proof.
  unfold row_leds. rewrite map_map. apply map_ext. intros j.
  unfold zigzag_led. destruct (i mod 2 =? 0)%Z; reflexivity.
Qed.

Lemma range_shift (a b : Z) :
  (0 <= a)%Z -> (0 <= b)%Z ->
  range (a + b) = range a ++ map (Z.add a) (range b).
Proof.
  intros Ha Hb. unfold range.
  rewrite Z2Nat.inj_add, seq_app, map_app by lia. f_equal.
  rewrite Nat.add_0_l.
  rewrite <- (Nat.add_0_l (Z.to_nat a)) at 1.
  generalize 0%nat as s. generalize (Z.to_nat b) as m.
  induction m as [|m IH]; intros s; simpl; [reflexivity|].
  f_equal; [lia|]. apply (IH (S s)).
Qed.

Lemma sum_max_nonneg (rows : list Z) : (0 <= sum (map (Z.max 0) rows))%Z.
Proof.
  unfold sum. induction rows as [|n rest IH]; simpl; [lia|].
  revert IH. generalize (fold_right Z.add 0%Z (map (Z.max 0) rest)). lia.
Qed.

Lemma sum_max_positive (rows : list Z) :
  Forall (fun n => (0 < n)%Z) rows -> sum (map (Z.max 0) rows) = sum rows.
Proof.
  unfold sum. induction 1 as [|n rest Hn _ IH]; simpl; [reflexivity|].
  rewrite IH. lia.
Qed.

Lemma range_max (n : Z) : range (Z.max 0 n) = range n.
Proof. unfold range. f_equal. f_equal. lia. Qed.

Lemma zigzag_list_index (rh : Q) (rows : list Z) (i index : Z) :
  map _index (zigzag_list rh i index rows) =
  map (Z.add index) (range (sum (map (Z.max 0) rows))).
Proof.
  revert i index. induction rows as [|n rest IH]; intros i index; simpl.
  - reflexivity.
  - rewrite map_app, row_leds_index, IH.
    fold (sum (map (Z.max 0) rest)).
    rewrite range_shift by (try apply sum_max_nonneg; lia).
    rewrite map_app, map_map, range_max. f_equal.
    apply map_ext. intros k. lia.
Qed.

Lemma map_add_0 (l : list Z) : map (Z.add 0) l = l.
Proof. rewrite <- (map_id l) at 2. apply map_ext. intros k. lia. Qed.

(** The call on a non-empty layout: it returns, and the quadtree holds the
    Lights of [zigzag_list], every one of them stored. *)
Lemma map_LEDs_in_zigzag_returns (l : list Z) (w : world) :
  l <> [] ->
  exists rh q,
    row_height l = inr rh /\
    map_LEDs_in_zigzag l w = Returned tt (set_quadtree (Some q) w) /\
    qt_points q = zigzag_list rh 0 0 l /\
    Forall in_unit_square (qt_points q) /\
    unit_domain q /\ qt_mask q = None.
Proof.
  intros Hl. destruct (row_height_cases l) as [(E & _)|(_ & rh & Hrh & Hpos & HN)];
    [contradiction|].
  assert (Hsq : Forall in_unit_square (zigzag_list rh 0 0 l))
    by (eapply zigzag_list_in_unit_square; eauto; lia).
  assert (Hdom : Forall in_domain (zigzag_list rh 0 0 l))
    by (eapply Forall_impl; [|exact Hsq]; apply in_unit_square_in_domain).
  destruct (fold_insert_stored unit_domain_new Hdom) as (Hp & Hu & Hm).
  exists rh, (fold_left qt_insert (zigzag_list rh 0 0 l)
                        (Quadtree_new (1 # 2) (1 # 2) 1 1)).
  split; [exact Hrh|]. split.
  - unfold map_LEDs_in_zigzag. rewrite Hrh, zigzag_rows_eq. reflexivity.
  - rewrite Hp. simpl. repeat split; try assumption; apply Hu.
Qed.

(** The call on the empty layout: [1 / len(lights_per_row)] raises, after
    the quadtree was replaced by a new, empty one. *)
Lemma map_LEDs_in_zigzag_empty (w : world) :
  map_LEDs_in_zigzag [] w =
  Raised ZeroDivisionError
         (set_quadtree (Some (Quadtree_new (1 # 2) (1 # 2) 1 1)) w).
Proof. reflexivity. Qed.

(** ** C3: the indices of a mapped layout *)

(** C3.  For a layout of positive row counts, [map_LEDs_in_zigzag] leaves a
    quadtree holding exactly [sum(layout)] Lights whose indices, in insertion
    order, are [0, 1, ..., sum(layout) - 1]: a contiguous range without
    duplicate or gap, assigned in strictly increasing order.  On a non-empty
    layout the call returns normally. *)
Theorem zigzag_indices_contiguous (l : list Z) (w : world) :
  Forall (fun n => (0 < n)%Z) l ->
  exists q,
    _quadtree (self (final_state (map_LEDs_in_zigzag l w))) = Some q /\
    len (qt_points q) = sum l /\
    map _index (qt_points q) = range (sum l) /\
    NoDup (map _index (qt_points q)) /\
    (l <> [] ->
     map_LEDs_in_zigzag l w =
     Returned tt (final_state (map_LEDs_in_zigzag l w))).
Proof.
  intros Hpos. destruct l as [|n rest].
  - exists (Quadtree_new (1 # 2) (1 # 2) 1 1). simpl.
    repeat split; try reflexivity; [constructor|]. intros H. now elim H.
  - set (l := n :: rest) in *.
    destruct (@map_LEDs_in_zigzag_returns l w) as (rh & q & _ & Hm & Hp & _);
      [discriminate|].
    assert (Hidx : map _index (qt_points q) = range (sum l)).
    { rewrite Hp, zigzag_list_index, map_add_0, sum_max_positive by assumption.
      reflexivity. }
    exists q. rewrite Hm. simpl. repeat split.
    + unfold len. rewrite <- (length_map _index), Hidx, range_length.
      pose proof (sum_max_nonneg l) as Hs.
      rewrite sum_max_positive in Hs by assumption.
      rewrite Z2Nat.id by exact Hs. reflexivity.
    + exact Hidx.
    + rewrite Hidx. unfold range. apply Finite.Injective_map_NoDup.
      * intros a b. apply Nat2Z.inj.
      * apply seq_NoDup.
Qed.

Lemma zigzag_indices_contiguous_witness :
  exists q,
    _quadtree (self (final_state (map_LEDs_in_zigzag [2; 3]%Z fresh_world)))
    = Some q /\
    map _index (qt_points q) = [0; 1; 2; 3; 4]%Z.
Proof.
  destruct (@zigzag_indices_contiguous [2; 3]%Z fresh_world)
    as (q & Hq & _ & Hidx & _).
  - repeat constructor.
  - exists q. split; [exact Hq | exact Hidx].
Defined.

(** ** C10: the Lights lie in the half-open unit square *)

(** C10.  For a layout of positive row counts, every one of the
    [sum(layout)] Lights that [map_LEDs_in_zigzag] builds is stored, and each
    has [0 <= x < 1] and [0 <= y < 1]. *)
Theorem zigzag_lights_in_unit_square (l : list Z) (w : world) :
  Forall (fun n => (0 < n)%Z) l ->
  exists q,
    _quadtree (self (final_state (map_LEDs_in_zigzag l w))) = Some q /\
    len (qt_points q) = sum l /\
    Forall in_unit_square (qt_points q).
Proof.
  intros Hpos. destruct l as [|n rest].
  - exists (Quadtree_new (1 # 2) (1 # 2) 1 1). simpl.
    repeat split; constructor.
  - set (l := n :: rest) in *.
    destruct (@map_LEDs_in_zigzag_returns l w) as (rh & q & _ & Hm & Hp & Hsq & _);
      [discriminate|].
    exists q. rewrite Hm. simpl. repeat split; [|exact Hsq].
    unfold len. rewrite <- (length_map _index), Hp, zigzag_list_index.
    rewrite length_map, range_length, sum_max_positive by assumption.
    pose proof (sum_max_nonneg l) as Hs.
    rewrite sum_max_positive in Hs by assumption.
    rewrite Z2Nat.id by exact Hs. reflexivity.
Qed.

Lemma zigzag_lights_in_unit_square_witness :
  exists q,
    _quadtree (self (final_state
       (map_LEDs_in_zigzag ceiling.CEILING_ROW_ARRANGEMENT fresh_world)))
    = Some q /\
    len (qt_points q) = 199%Z /\
    Forall in_unit_square (qt_points q).
Proof.
  apply (@zigzag_lights_in_unit_square ceiling.CEILING_ROW_ARRANGEMENT fresh_world).
  repeat constructor.
Defined.

(** ** C7: layouts the spec calls invalid *)

(** C7, as stated, fails: the layout [[2, 0, 3]] contains a non-positive row
    count, yet the call does not raise (it returns, with five Lights
    mapped). *)
Lemma invalid_layout_not_rejected :
  ~ (forall (l : list Z) (w : world),
        l = [] \/ Exists (fun n => (n <= 0)%Z) l ->
        exists e w', map_LEDs_in_zigzag l w = Raised e w' /\ lights w' = []).
Proof.
  intros H.
  destruct (H [2; 0; 3]%Z fresh_world) as (e & w' & Hr & _).
  - right. apply Exists_cons_tl. apply Exists_cons_hd. lia.
  - vm_compute in Hr. discriminate Hr.
Qed.

(** C7, amended.  The empty layout is fatal: the call raises
    [ZeroDivisionError] and leaves a new, empty quadtree.  Any other layout
    is accepted without an error, whatever its row counts: a row with a
    non-positive count contributes no Light and the other rows are mapped,
    so that the indices stored are [0 .. sum(max(0, n)) - 1]. *)
Theorem layout_validation (l : list Z) (w : world) :
  exists q,
    map _index (qt_points q) = range (sum (map (Z.max 0) l)) /\
    Forall in_unit_square (qt_points q) /\
    map_LEDs_in_zigzag l w =
    match l with
    | [] => Raised ZeroDivisionError (set_quadtree (Some q) w)
    | _ :: _ => Returned tt (set_quadtree (Some q) w)
    end.
Proof.
  destruct l as [|n rest].
  - exists (Quadtree_new (1 # 2) (1 # 2) 1 1). repeat split. constructor.
  - destruct (@map_LEDs_in_zigzag_returns (n :: rest) w)
      as (rh & q & _ & Hm & Hp & Hsq & _); [discriminate|].
    exists q. split; [|split; assumption].
    rewrite Hp, zigzag_list_index, map_add_0. reflexivity.
Qed.

(** ** C9: the circle mask *)

Lemma np_pi_pos : 0 < np_pi.
Proof. reflexivity. Qed.

Lemma inject_Z_pos (n : Z) : (0 < n)%Z -> 0 < inject_Z n.
Proof. intros Hn. change 0 with (inject_Z 0). rewrite <- Zlt_Qlt. exact Hn. Qed.

Lemma np_arange_full_turn (n : Z) :
  (0 < n)%Z ->
  np_arange 0 (2 * np_pi) ((2 * np_pi) / inject_Z n) =
  map (mask_angle n) (range n).
Proof.
  intros Hn. unfold np_arange.
  assert (E : (2 * np_pi - 0) / (2 * np_pi / inject_Z n) == inject_Z n).
  { pose proof (inject_Z_pos Hn). pose proof np_pi_pos.
    field. split; lra. }
  rewrite (Qceiling_comp _ _ E), Qceiling_Z. reflexivity.
Qed.

Lemma setitem_app {A : Type} (done pad : list A) (p v : A) :
  setitem (done ++ p :: pad) (length done) v = Some (done ++ v :: pad).
Proof.
  induction done as [|d done IH]; simpl; [reflexivity|].
  rewrite IH. reflexivity.
Qed.

Lemma setitem_out_of_range {A : Type} (l : list A) (i : nat) (v : A) :
  (length l <= i)%nat -> setitem l i v = None.
Proof.
  revert i. induction l as [|a l IH]; intros i Hi; simpl; [reflexivity|].
  destruct i as [|i]; simpl in Hi; [lia|]. rewrite IH by lia. reflexivity.
Qed.

Lemma mask_loop `{Externals} (x y radius : Q) (thetas : list Q) :
  forall done pad,
    length pad = length thetas ->
    fold_left (mask_step x y radius) thetas
              (inr (done ++ pad, Z.of_nat (length done))) =
    inr (done ++ map (circle_point x y radius) thetas,
         Z.of_nat (length done + length thetas)).
Proof.
  induction thetas as [|t thetas IH]; intros done pad Hlen.
  - destruct pad; [|discriminate]. simpl. rewrite Nat.add_0_r. reflexivity.
  - destruct pad as [|p pad]; [discriminate|]. simpl in Hlen.
    cbn [fold_left mask_step]. rewrite Nat2Z.id, setitem_app.
    specialize (IH (done ++ [circle_point x y radius t]) pad).
    rewrite <- app_assoc, length_app in IH. simpl in IH.
    replace (Z.of_nat (length done) + 1)%Z
      with (Z.of_nat (length done + 1)) by lia.
    rewrite IH by lia. rewrite <- app_assoc. simpl. do 2 f_equal. lia.
Qed.

(** For a positive number of points the function returns the polygon of
    [circle_polygon]. *)
Lemma mask_for_radius_eq `{Externals} (x y radius : Q) (n : Z) :
  (0 < n)%Z -> _mask_for_radius x y radius n = inr (circle_polygon x y radius n).
Proof.
  intros Hn. unfold _mask_for_radius.
  destruct (n =? 0)%Z eqn:E0; [apply Z.eqb_eq in E0; lia|].
  rewrite np_arange_full_turn by exact Hn.
  pose proof (@mask_loop _ x y radius (map (mask_angle n) (range n)) []
                         (repeat (0, 0) (Z.to_nat n))) as Hloop.
  simpl in Hloop. rewrite Hloop; [reflexivity|].
  rewrite repeat_length, length_map, range_length. reflexivity.
Qed.





(** In binary64 the quotient is exactly 10 for 10 points, as
    [get_LEDs_in_radius] asks for, but it exceeds 61 for 61 points: there
    [np.arange] yields 62 angles for a list of 61 points.  The theorem above,
    in exact arithmetic, does not cover that rounding. *)
Remark ieee_arange_quotient_examples :
  PrimFloat.eqb (ieee_arange_quotient 10) 10 = true /\
  PrimFloat.ltb 61 (ieee_arange_quotient 61) = true.
Proof. split; vm_compute; reflexivity. Qed.


(** ** The cache stores *)

Lemma args_eqb_eq (a b : list Q) : args_eqb a b = true <-> args_eq a b.
Proof.
  revert b. induction a as [|x a IH]; intros [|y b]; simpl.
  - split; [constructor | reflexivity].
  - split; [discriminate | intros H; inversion H].
  - split; [discriminate | intros H; inversion H].
  - rewrite andb_true_iff, Qeq_bool_iff, IH. split.
    + intros (Hx & Hab). constructor; assumption.
    + intros H. inversion H; subst. split; assumption.
Qed.

Lemma key_eqb_eq (k k' : key) :
  key_eqb k k' = true <-> fst k = fst k' /\ args_eq (snd k) (snd k').
Proof.
  unfold key_eqb. rewrite andb_true_iff, Nat.eqb_eq, args_eqb_eq. reflexivity.
Qed.

Lemma lru_find_some {V : Type} (k : key) (c : lru V) (v : V) :
  lru_find k c = Some v -> exists k', In (k', v) c /\ key_eqb k k' = true.
Proof.
  induction c as [|[k' v'] c IH]; simpl; [discriminate|].
  destruct (key_eqb k k') eqn:E.
  - intros [= ->]. exists k'. split; [left; reflexivity | exact E].
  - intros H. destruct (IH H) as (k'' & Hin & Hk). exists k''. auto.
Qed.

Lemma lru_remove_incl {V : Type} (k : key) (c : lru V) (e : key * V) :
  In e (lru_remove k c) -> In e c.
Proof.
  induction c as [|[k' v'] c IH]; simpl; [auto|].
  destruct (key_eqb k k'); simpl; intuition.
Qed.

Lemma firstn_incl {A : Type} (n : nat) (l : list A) (a : A) :
  In a (firstn n l) -> In a l.
Proof.
  revert l. induction n as [|n IH]; intros [|b l]; simpl; try tauto.
  intros [H|H]; [left; exact H | right; apply IH; exact H].
Qed.

Lemma lru_touch_agrees {V : Type} (id : nat) (k : key) (v : V) (c : lru V)
    (shape : list Q -> option V) :
  cache_agrees id c shape -> shape (snd k) = Some v ->
  cache_agrees id (lru_touch k v c) shape.
Proof.
  intros Hc Hk k0 v0 [H|H] Hid.
  - inversion H; subst. exact Hk.
  - apply Hc; [eapply lru_remove_incl; exact H | exact Hid].
Qed.

Lemma lru_store_agrees {V : Type} (id : nat) (k : key) (v : V) (c : lru V)
    (shape : list Q -> option V) :
  cache_agrees id c shape -> shape (snd k) = Some v ->
  cache_agrees id (lru_store k v c) shape.
Proof.
  intros Hc Hk k0 v0 H Hid. unfold lru_store in H.
  destruct (lru_find k c).
  - apply Hc; assumption.
  - apply firstn_incl in H. destruct H as [H|H].
    + inversion H; subst. exact Hk.
    + apply Hc; assumption.
Qed.

(** A decorated call on agreeing caches returns the value of the
    computation, whether it hits or misses, and the store still agrees. *)
Lemma lru_lookup_agrees {V : Type} (id : nat) (k : key) (v : V) (c : lru V)
    (shape : list Q -> option V) :
  (forall a b u, args_eq a b -> shape b = Some u -> shape a = Some u) ->
  cache_agrees id c shape -> fst k = id -> shape (snd k) = Some v ->
  fst (lru_lookup k v c) = v /\ cache_agrees id (snd (lru_lookup k v c)) shape.
Proof.
  intros Hresp Hc Hid Hk. unfold lru_lookup.
  destruct (lru_find k c) as [v'|] eqn:Hf; simpl.
  - destruct (lru_find_some _ _ Hf) as (k' & Hin & Hkk).
    apply key_eqb_eq in Hkk. destruct Hkk as (Hfst & Hargs).
    assert (Hv' : shape (snd k) = Some v').
    { apply (Hresp _ _ _ Hargs). apply (Hc _ _ Hin). congruence. }
    split; [congruence|]. apply lru_touch_agrees; assumption.
  - split; [reflexivity|]. apply lru_store_agrees; assumption.
Qed.

(** ** The computations depend on the numeric value of their arguments *)

Lemma Qltb_comp (a a' b b' : Q) : a == a' -> b == b' -> Qltb a b = Qltb a' b'.
Proof. intros Ha Hb. unfold Qltb. rewrite Ha, Hb. reflexivity. Qed.

Lemma Qltb_lt (a b : Q) : Qltb a b = true <-> a < b.
Proof.
  unfold Qltb. rewrite negb_true_iff, <- not_true_iff_false, Qle_bool_iff.
  split; [apply Qnot_le_lt | apply Qlt_not_le].
Qed.

Lemma Qltb_ge (a b : Q) : Qltb a b = false <-> b <= a.
Proof.
  unfold Qltb. rewrite negb_false_iff, Qle_bool_iff. reflexivity.
Qed.

Lemma area_of_comp `{ES : ExternalsSpec} (L : list LED)
    (x y width height x' y' width' height' : Q) :
  x == x' -> y == y' -> width == width' -> height == height' ->
  area_of L x y width height = area_of L x' y' width' height'.
Proof.
  intros Hx Hy Hw Hh. unfold area_of. apply filter_ext. intros led.
  apply in_mask_proper. unfold box_mask.
  repeat constructor; simpl; rewrite ?Hx, ?Hy, ?Hw, ?Hh; reflexivity.
Qed.

Lemma radius_of_comp `{ES : ExternalsSpec} (L : list LED)
    (x y radius x' y' radius' : Q) :
  x == x' -> y == y' -> radius == radius' ->
  radius_of L x y radius = radius_of L x' y' radius'.
Proof.
  intros Hx Hy Hr. unfold radius_of.
  rewrite !mask_for_radius_eq by lia. apply filter_ext. intros led.
  apply in_mask_proper. unfold circle_polygon, same_polygon.
  induction (map (mask_angle 10) (range 10)) as [|t ts IH]; simpl;
    constructor; [|exact IH].
  simpl. rewrite Hx, Hy, Hr. split; reflexivity.
Qed.

Lemma closest_step_comp (x y m x' y' m' : Q) (st st' : option LED * root)
    (led : LED) :
  x == x' -> y == y' -> m == m' -> same_scan_state st st' ->
  same_scan_state (closest_step x y m st led) (closest_step x' y' m' st' led).
Proof.
  intros Hx Hy Hm (Hf & Hr). unfold closest_step.
  destruct st as [c d], st' as [c' d']. simpl in Hf, Hr. subst c'.
  assert (Hd : radicand (distance_formula x y (get_x led) (get_y led)) ==
               radicand (distance_formula x' y' (get_x led) (get_y led))).
  { simpl. rewrite Hx, Hy. reflexivity. }
  assert (Hgt : root_gt (distance_formula x y (get_x led) (get_y led)) m =
                root_gt (distance_formula x' y' (get_x led) (get_y led)) m').
  { unfold root_gt. f_equal; apply Qltb_comp;
      rewrite ?Hm, ?Hd; reflexivity. }
  assert (Hlt : root_lt (distance_formula x y (get_x led) (get_y led)) d =
                root_lt (distance_formula x' y' (get_x led) (get_y led)) d').
  { unfold root_lt. apply Qltb_comp; assumption. }
  rewrite Hgt. cbn [fst snd]. rewrite Hlt.
  destruct (root_gt (distance_formula x' y' (get_x led) (get_y led)) m');
    [split; [reflexivity | exact Hr]|].
  destruct c as [old|]; [|split; [reflexivity | exact Hd]].
  destruct (root_lt (distance_formula x' y' (get_x led) (get_y led)) d');
    split; try reflexivity; assumption.
Qed.

Lemma closest_scan_comp (x y m x' y' m' : Q) (res : list LED) :
  x == x' -> y == y' -> m == m' ->
  closest_scan x y m res = closest_scan x' y' m' res.
Proof.
  intros Hx Hy Hm. unfold closest_scan.
  assert (G : forall st st', same_scan_state st st' ->
            same_scan_state (fold_left (closest_step x y m) res st)
                            (fold_left (closest_step x' y' m') res st')).
  { induction res as [|led res IH]; intros st st' Hst; simpl; [exact Hst|].
    apply IH. apply closest_step_comp; assumption. }
  destruct (G (None, root_of_Q (inject_Z 9999999))
              (None, root_of_Q (inject_Z 9999999))) as (Hf & _).
  { split; reflexivity. }
  rewrite Hf. reflexivity.
Qed.

Lemma closest_of_comp `{ES : ExternalsSpec} (L : list LED)
    (x y m x' y' m' : Q) :
  x == x' -> y == y' -> m == m' ->
  closest_of L x y (Some m) = closest_of L x' y' (Some m').
Proof.
  intros Hx Hy Hm. unfold closest_of.
  rewrite (@area_of_comp _ _ L x y (m * 2) (m * 2) x' y' (m' * 2) (m' * 2));
    try assumption; try (rewrite Hm; reflexivity).
  apply closest_scan_comp; assumption.
Qed.

Lemma closest_of_default_comp `{ES : ExternalsSpec} (L : list LED)
    (x y x' y' : Q) :
  x == x' -> y == y' -> closest_of L x y None = closest_of L x' y' None.
Proof.
  intros Hx Hy. unfold closest_of.
  rewrite (@area_of_comp _ _ L x y (default_max_distance * 2)
             (default_max_distance * 2) x' y' (default_max_distance * 2)
             (default_max_distance * 2)); try assumption; try reflexivity.
  apply closest_scan_comp; try assumption. reflexivity.
Qed.

(** ** Queries on caches that agree with the Light set *)

Lemma area_shape_comp `{ES : ExternalsSpec} (L : list LED) (a b : list Q)
    (u : list LED) :
  args_eq a b -> area_shape L b = Some u -> area_shape L a = Some u.
Proof.
  intros H. unfold area_shape.
  destruct H as [|x x' ? ? Hx [|y y' ? ? Hy [|w w' ? ? Hw [|h h' ? ? Hh
    [|? ? ? ? _ _]]]]]; try discriminate.
  intros [= <-]. f_equal. apply area_of_comp; assumption.
Qed.

Lemma radius_shape_comp `{ES : ExternalsSpec} (L : list LED) (a b : list Q)
    (u : list LED) :
  args_eq a b -> radius_shape L b = Some u -> radius_shape L a = Some u.
Proof.
  intros H. unfold radius_shape.
  destruct H as [|x x' ? ? Hx [|y y' ? ? Hy [|r r' ? ? Hr
    [|? ? ? ? _ _]]]]; try discriminate.
  intros [= <-]. f_equal. apply radius_of_comp; assumption.
Qed.

Lemma closest_shape_comp `{ES : ExternalsSpec} (L : list LED) (a b : list Q)
    (u : option Z) :
  args_eq a b -> closest_shape L b = Some u -> closest_shape L a = Some u.
Proof.
  intros H. unfold closest_shape.
  destruct H as [|x x' ? ? Hx [|y y' ? ? Hy [|m m' ? ? Hm
    [|? ? ? ? _ _]]]]; try discriminate.
  - intros [= <-]. f_equal. apply closest_of_default_comp; assumption.
  - intros [= <-]. f_equal. apply closest_of_comp; assumption.
Qed.

Lemma area_step_coherent `{ES : ExternalsSpec} (id : nat) (L : list LED)
    (cs : Caches) (x y width height : Q) :
  coherent_caches id L cs ->
  fst (area_step id L cs x y width height) = area_of L x y width height /\
  coherent_caches id L (snd (area_step id L cs x y width height)).
Proof.
  intros (Ha & Hr & Hc). unfold area_step.
  destruct (@lru_lookup_agrees _ id (id, [x; y; width; height])
              (area_of L x y width height) (area_cache cs) (area_shape L))
    as (Hv & Hagree); try reflexivity; try assumption.
  { intros a b u. apply area_shape_comp. }
  simpl. split; [exact Hv|]. repeat split; assumption.
Qed.

Lemma radius_step_coherent `{ES : ExternalsSpec} (id : nat) (L : list LED)
    (cs : Caches) (x y radius : Q) :
  coherent_caches id L cs ->
  fst (radius_step id L cs x y radius) = radius_of L x y radius /\
  coherent_caches id L (snd (radius_step id L cs x y radius)).
Proof.
  intros (Ha & Hr & Hc). unfold radius_step.
  destruct (@lru_lookup_agrees _ id (id, [x; y; radius])
              (radius_of L x y radius) (radius_cache cs) (radius_shape L))
    as (Hv & Hagree); try reflexivity; try assumption.
  { intros a b u. apply radius_shape_comp. }
  simpl. split; [exact Hv|]. repeat split; assumption.
Qed.

Lemma closest_lookup_coherent `{ES : ExternalsSpec} (id : nat) (L : list LED)
    (cs : Caches) (k : key) (x y m : Q) (md : option Q) :
  coherent_caches id L cs ->
  fst k = id ->
  closest_shape L (snd k) = Some (closest_of L x y md) ->
  m = match md with Some m' => m' | None => default_max_distance end ->
  fst (closest_lookup id L cs k x y m) = closest_of L x y md /\
  coherent_caches id L (snd (closest_lookup id L cs k x y m)).
Proof.
  intros Hcoh Hid Hk Hm. unfold closest_lookup.
  destruct Hcoh as (Ha & Hr & Hc).
  destruct (lru_find k (closest_cache cs)) as [v|] eqn:Hf.
  - destruct (lru_find_some _ _ Hf) as (k' & Hin & Hkk).
    apply key_eqb_eq in Hkk. destruct Hkk as (Hfst & Hargs).
    assert (Hv : closest_shape L (snd k) = Some v).
    { apply (closest_shape_comp _ Hargs). apply (Hc _ _ Hin). congruence. }
    simpl. split; [congruence|]. repeat split; try assumption.
    simpl. apply lru_touch_agrees; assumption.
  - unfold closest_step_body.
    destruct (@area_step_coherent _ _ id L cs x y (m * 2) (m * 2))
      as (Hv & (Ha' & Hr' & Hc')); [repeat split; assumption|].
    cbn [fst snd]. rewrite Hv.
    assert (Hres : closest_scan x y m (area_of L x y (m * 2) (m * 2)) =
                   closest_of L x y md).
    { unfold closest_of. rewrite <- Hm. reflexivity. }
    rewrite Hres. split; [reflexivity|]. repeat split; try assumption.
    simpl. apply lru_store_agrees; assumption.
Qed.

(** On caches that agree with [L], a query answers what it computes from
    [L], and the caches agree with [L] afterwards. *)
Lemma query_step_coherent `{ES : ExternalsSpec} (id : nat) (L : list LED)
    (cs : Caches) (q : query) :
  coherent_caches id L cs ->
  fst (query_step id L cs q) = computed_from L q /\
  coherent_caches id L (snd (query_step id L cs q)).
Proof.
  intros Hcoh.
  destruct q as [x y wd h | x y r | x y [m|]]; cbn [query_step fst snd].
  - destruct (area_step_coherent x y wd h Hcoh) as (Hv & Hc').
    rewrite Hv. auto.
  - destruct (radius_step_coherent x y r Hcoh) as (Hv & Hc').
    rewrite Hv. auto.
  - destruct (@closest_lookup_coherent _ _ id L cs (id, [x; y; m]) x y m
                (Some m) Hcoh) as (Hv & Hc'); try reflexivity.
    rewrite Hv. auto.
  - destruct (@closest_lookup_coherent _ _ id L cs (id, [x; y]) x y
                default_max_distance None Hcoh) as (Hv & Hc'); try reflexivity.
    rewrite Hv. auto.
Qed.

Lemma queries_steps_coherent `{ES : ExternalsSpec} (id : nat) (L : list LED)
    (qs : list query) :
  forall cs,
    coherent_caches id L cs ->
    fst (queries_steps id L cs qs) = map (computed_from L) qs /\
    coherent_caches id L (snd (queries_steps id L cs qs)).
Proof.
  induction qs as [|q qs IH]; intros cs Hcoh;
    cbn [queries_steps fst snd map]; [auto|].
  destruct (query_step_coherent q Hcoh) as (Hv & Hc').
  destruct (IH _ Hc') as (Hvs & Hc''). rewrite Hv, Hvs. auto.
Qed.

Lemma coherent_empty `{Externals} (id : nat) (L : list LED) :
  coherent_caches id L empty_caches.
Proof. repeat split; intros k v []. Qed.

(** ** The methods refine the functions on Light sets and caches *)

Lemma collect_after_restore `{Externals} (m : polygon) (w : world) :
  mapped w ->
  exists w',
    bind restore_if_detached (fun _ => collect_under_mask m) w =
    Returned (filter (fun led => in_mask m (get_x led) (get_y led)) (lights w)) w'
    /\ same_view w w' /\ caches w' = caches w /\ _quadtree (self w') <> None.
Proof.
  destruct w as [[id [q|] sv] cs]; unfold mapped, lights; simpl.
  - intros Hdom. run_py.
    eexists. split; [reflexivity|].
    unfold same_view, mapped, lights. simpl.
    repeat split; try assumption; discriminate.
  - destruct sv as [vs|]; [|contradiction]. intros Hdom.
    destruct (fold_insert_stored unit_domain_new Hdom) as (Hp & _ & _).
    simpl in Hp. run_py.
    eexists. split.
    + unfold qt_elements. simpl. rewrite Hp. reflexivity.
    + unfold same_view, mapped, lights. simpl. rewrite Hp.
      repeat split; try assumption; discriminate.
Qed.

Lemma area_body_refines `{Externals} (x y width height : Q) (w : world) :
  mapped w ->
  exists w',
    get_LEDs_in_area_body x y width height w =
    Returned (area_of (lights w) x y width height) w'
    /\ same_view w w' /\ caches w' = caches w.
Proof.
  intros Hm. unfold get_LEDs_in_area_body.
  destruct (collect_after_restore
              (box_mask (x - width / 2) (x + width / 2)
                        (y - height / 2) (y + height / 2)) w Hm)
    as (w' & Hr & Hv & Hc & _).
  exists w'. auto.
Qed.

Lemma radius_body_refines `{Externals} (x y radius : Q) (w : world) :
  mapped w ->
  exists w',
    get_LEDs_in_radius_body x y radius w =
    Returned (radius_of (lights w) x y radius) w'
    /\ same_view w w' /\ caches w' = caches w.
Proof.
  intros Hm. unfold get_LEDs_in_radius_body, radius_of.
  rewrite mask_for_radius_eq by lia.
  destruct (collect_after_restore (circle_polygon x y radius 10) w Hm)
    as (w' & Hr & Hv & Hc & _).
  exists w'. auto.
Qed.

Lemma same_view_set_caches (c : Caches) (w w' : world) :
  same_view w w' -> same_view w (set_caches c w').
Proof. intros H. exact H. Qed.

Lemma same_view_refl (w : world) : mapped w -> same_view w w.
Proof. intros H. repeat split. exact H. Qed.

Lemma same_view_trans (w1 w2 w3 : world) :
  same_view w1 w2 -> same_view w2 w3 -> same_view w1 w3.
Proof.
  intros (Hi & Hl & _) (Hi' & Hl' & Hm'). repeat split; congruence.
Qed.

Lemma get_LEDs_in_area_refines `{Externals} (x y width height : Q) (w : world) :
  mapped w ->
  exists w',
    get_LEDs_in_area x y width height w =
    Returned (fst (area_step (self_id (self w)) (lights w) (caches w)
                             x y width height)) w'
    /\ same_view w w'
    /\ caches w' = snd (area_step (self_id (self w)) (lights w) (caches w)
                                  x y width height).
Proof.
  intros Hm.
  unfold get_LEDs_in_area, bind, get_state, lru_cached, area_step, lru_lookup.
  destruct (lru_find (self_id (self w), [x; y; width; height])
                     (area_cache (caches w))) as [v|].
  - eexists. split; [reflexivity|]. split; [|reflexivity].
    apply same_view_set_caches, same_view_refl, Hm.
  - destruct (area_body_refines x y width height w Hm) as (w1 & Hr & Hv & Hc).
    rewrite Hr. eexists. split; [reflexivity|]. split.
    + apply same_view_set_caches, Hv.
    + simpl. rewrite Hc. reflexivity.
Qed.

Lemma get_LEDs_in_radius_refines `{Externals} (x y radius : Q) (w : world) :
  mapped w ->
  exists w',
    get_LEDs_in_radius x y radius w =
    Returned (fst (radius_step (self_id (self w)) (lights w) (caches w)
                               x y radius)) w'
    /\ same_view w w'
    /\ caches w' = snd (radius_step (self_id (self w)) (lights w) (caches w)
                                    x y radius).
Proof.
  intros Hm.
  unfold get_LEDs_in_radius, bind, get_state, lru_cached, radius_step,
    lru_lookup.
  destruct (lru_find (self_id (self w), [x; y; radius])
                     (radius_cache (caches w))) as [v|].
  - eexists. split; [reflexivity|]. split; [|reflexivity].
    apply same_view_set_caches, same_view_refl, Hm.
  - destruct (radius_body_refines x y radius w Hm) as (w1 & Hr & Hv & Hc).
    rewrite Hr. eexists. split; [reflexivity|]. split.
    + apply same_view_set_caches, Hv.
    + simpl. rewrite Hc. reflexivity.
Qed.

Lemma closest_cached_refines `{Externals} (k : key) (x y m : Q) (w : world) :
  mapped w ->
  exists w',
    lru_cached closest_cache upd_closest k
               (get_closest_LED_index_body x y m) w =
    Returned (fst (closest_lookup (self_id (self w)) (lights w) (caches w)
                                  k x y m)) w'
    /\ same_view w w'
    /\ caches w' = snd (closest_lookup (self_id (self w)) (lights w) (caches w)
                                       k x y m).
Proof.
  intros Hm. unfold lru_cached, closest_lookup.
  destruct (lru_find k (closest_cache (caches w))) as [v|].
  - eexists. split; [reflexivity|]. split; [|reflexivity].
    apply same_view_set_caches, same_view_refl, Hm.
  - unfold get_closest_LED_index_body, bind, ret, closest_step_body.
    destruct (get_LEDs_in_area_refines x y (m * 2) (m * 2) w Hm)
      as (w1 & Hr & Hv & Hc).
    rewrite Hr. eexists. split; [reflexivity|]. split.
    + apply same_view_set_caches, Hv.
    + simpl. rewrite Hc. reflexivity.
Qed.

(** Every query returns, with the answer and the caches of [query_step],
    and leaves the Light set as it was. *)
Lemma run_query_refines `{Externals} (q : query) (w : world) :
  mapped w ->
  exists w',
    run_query q w =
    Returned (fst (query_step (self_id (self w)) (lights w) (caches w) q)) w'
    /\ same_view w w'
    /\ caches w' = snd (query_step (self_id (self w)) (lights w) (caches w) q).
Proof.
  intros Hm. destruct q as [x y wd h | x y r | x y [m|]];
    cbn [run_query query_step fst snd]; unfold bind, ret.
  - destruct (get_LEDs_in_area_refines x y wd h w Hm) as (w' & Hr & Hv & Hc).
    rewrite Hr. exists w'. auto.
  - destruct (get_LEDs_in_radius_refines x y r w Hm) as (w' & Hr & Hv & Hc).
    rewrite Hr. exists w'. auto.
  - unfold get_closest_LED_index, bind, get_state.
    destruct (closest_cached_refines (self_id (self w), [x; y; m]) x y m w Hm)
      as (w' & Hr & Hv & Hc).
    rewrite Hr. exists w'. auto.
  - unfold get_closest_LED_index, bind, get_state.
    destruct (closest_cached_refines (self_id (self w), [x; y]) x y
                default_max_distance w Hm) as (w' & Hr & Hv & Hc).
    rewrite Hr. exists w'. auto.
Qed.

Lemma run_queries_refines `{Externals} (qs : list query) :
  forall w,
    mapped w ->
    exists w',
      run_queries qs w =
      Returned (fst (queries_steps (self_id (self w)) (lights w) (caches w) qs))
               w'
      /\ same_view w w'
      /\ caches w' =
         snd (queries_steps (self_id (self w)) (lights w) (caches w) qs).
Proof.
  induction qs as [|q qs IH]; intros w Hm.
  - exists w. repeat split. exact Hm.
  - cbn [run_queries queries_steps fst snd]. unfold bind, ret.
    destruct (run_query_refines q w Hm) as (w1 & Hr & Hv & Hc).
    rewrite Hr.
    destruct (IH w1 (proj2 (proj2 Hv))) as (w2 & Hr2 & Hv2 & Hc2).
    rewrite Hr2. destruct Hv as (Hid & Hl & Hm1).
    rewrite Hid, Hl, Hc in Hc2. rewrite Hid, Hl, Hc.
    exists w2. split; [reflexivity|]. split; [|exact Hc2].
    eapply same_view_trans; [|exact Hv2]. repeat split; assumption.
Qed.

(** ** Detaching and reattaching *)

Lemma save_when_detached `{Externals} (w : world) :
  detached (self w) -> save_quadtree_values_in_list w = Returned tt w.
Proof.
  destruct w as [[id q sv] cs]. unfold detached. simpl. intros (Hq & Hs).
  subst q. destruct sv as [vs|]; [reflexivity|]. now elim Hs.
Qed.

Lemma save_refines `{Externals} (w : world) :
  mapped w ->
  exists w',
    save_quadtree_values_in_list w = Returned tt w' /\
    same_view w w' /\ caches w' = caches w /\ detached (self w').
Proof.
  destruct w as [[id [q|] sv] cs]; unfold mapped; simpl.
  - intros Hdom. eexists. split; [reflexivity|].
    unfold same_view, mapped, lights, detached. simpl.
    repeat split; try assumption; discriminate.
  - destruct sv as [vs|]; [|contradiction]. intros Hdom.
    eexists. split; [reflexivity|].
    unfold same_view, mapped, lights, detached. simpl.
    repeat split; try assumption; discriminate.
Qed.

Lemma restore_when_detached (w : world) :
  mapped w -> detached (self w) ->
  exists w',
    restore_quadtree w = Returned tt w' /\
    same_view w w' /\ caches w' = caches w /\ attached (self w').
Proof.
  destruct w as [[id q sv] cs]. unfold mapped, detached. simpl.
  intros Hdom (Hq & Hs). subst q. destruct sv as [vs|]; [|now elim Hs].
  destruct (fold_insert_stored unit_domain_new Hdom) as (Hp & _ & _).
  simpl in Hp. eexists. split; [reflexivity|].
  unfold same_view, mapped, lights, attached. simpl. rewrite Hp.
  repeat split; try assumption; discriminate.
Qed.

(** One detach-then-reattach round trip: it returns, attached, with the
    same Lights and the same caches. *)
Lemma round_trip_refines `{Externals} (w : world) :
  mapped w ->
  exists w',
    round_trip w = Returned tt w' /\
    same_view w w' /\ caches w' = caches w /\ attached (self w').
Proof.
  intros Hm. unfold round_trip, bind.
  destruct (save_refines w Hm) as (w1 & Hs & Hv1 & Hc1 & Hd). rewrite Hs.
  destruct (restore_when_detached w1 (proj2 (proj2 Hv1)) Hd)
    as (w2 & Hr & Hv2 & Hc2 & Ha).
  exists w2. split; [exact Hr|]. split; [|split; [congruence | exact Ha]].
  eapply same_view_trans; eassumption.
Qed.

Lemma round_trips_refine `{Externals} (n : nat) :
  forall w,
    mapped w ->
    exists w',
      repeat_call n round_trip w = Returned tt w' /\
      same_view w w' /\ caches w' = caches w.
Proof.
  induction n as [|n IH]; intros w Hm.
  - exists w. repeat split. exact Hm.
  - cbn [repeat_call]. unfold bind.
    destruct (round_trip_refines w Hm) as (w1 & Hr & Hv1 & Hc1 & _).
    rewrite Hr.
    destruct (IH w1 (proj2 (proj2 Hv1))) as (w2 & Hr2 & Hv2 & Hc2).
    exists w2. split; [exact Hr2|]. split; [|congruence].
    eapply same_view_trans; eassumption.
Qed.

(** ** C5: detach and reattach *)

(** C5.  On a mapped [LEDSpace], [save_quadtree_values_in_list] changes
    nothing when the object is already detached, and after any number of
    detach-then-reattach round trips every sequence of queries returns the
    answers it returned before the first detach. *)
Theorem round_trips_preserve_queries `{Externals} (w : world) (n : nat)
    (qs : list query) :
  mapped w ->
  (detached (self w) -> save_quadtree_values_in_list w = Returned tt w) /\
  exists w' answers,
    repeat_call n round_trip w = Returned tt w' /\
    returned_value (run_queries qs w) = Some answers /\
    returned_value (run_queries qs w') = Some answers.
Proof.
  intros Hm. split; [apply save_when_detached|].
  destruct (round_trips_refine n w Hm) as (w' & Hr & (Hid & Hl & Hm') & Hc).
  destruct (run_queries_refines qs w Hm) as (w1 & Hq & _).
  destruct (run_queries_refines qs w' Hm') as (w2 & Hq' & _).
  exists w'. eexists. split; [exact Hr|].
  rewrite Hq, Hq', Hid, Hl, Hc. split; reflexivity.
Qed.

Lemma world_2_3_mapped : mapped world_2_3.
Proof. vm_compute. repeat constructor. Qed.

Lemma round_trips_preserve_queries_witness :
  exists w' answers,
    repeat_call 3 (@round_trip sample_externals) world_2_3 = Returned tt w' /\
    returned_value
      (@run_queries sample_externals
         [QClosest 0 (6 # 10) (Some (1 # 10)); QRadius (1 # 2) (1 # 2) (1 # 4)]
         world_2_3) = Some answers /\
    returned_value
      (@run_queries sample_externals
         [QClosest 0 (6 # 10) (Some (1 # 10)); QRadius (1 # 2) (1 # 2) (1 # 4)]
         w') = Some answers.
Proof.
  exact (proj2 (@round_trips_preserve_queries sample_externals world_2_3 3
                  [QClosest 0 (6 # 10) (Some (1 # 10));
                   QRadius (1 # 2) (1 # 2) (1 # 4)]
                  world_2_3_mapped)).
Defined.

(** ** The sample collaborators satisfy what the spec says *)

Lemma existsb_comp {A : Type} (R : A -> A -> Prop) (f g : A -> bool)
    (p p' : list A) :
  (forall a a', R a a' -> f a = g a') -> Forall2 R p p' ->
  existsb f p = existsb g p'.
Proof.
  intros Hfg. induction 1 as [|a a' p p' Ha _ IH]; simpl; [reflexivity|].
  rewrite (Hfg _ _ Ha), IH. reflexivity.
Qed.

Lemma sample_externals_spec : ExternalsSpec sample_externals.
Proof.
  split.
  - intros l r b t px py Hlr Hbt. unfold in_box. simpl.
    unfold extent_in_mask, box_mask. simpl.
    rewrite !andb_true_iff, !orb_true_iff, !Qle_bool_iff.
    split.
    + intros (((H1 & H2) & H3) & H4).
      repeat split;
        repeat match goal with H : _ \/ _ |- _ => destruct H end;
        try lra; try discriminate.
    + intros (H1 & H2 & H3 & H4). repeat split; auto.
  - intros p p' px py Hpp. simpl. unfold extent_in_mask.
    f_equal; [f_equal; [f_equal|]|];
      (eapply existsb_comp; [|exact Hpp]);
      intros a a' (Hx & Hy); simpl; rewrite ?Hx, ?Hy; reflexivity.
Qed.

(** ** The scan for the closest Light *)

Lemma root_gt_within (x y m : Q) (led : LED) :
  root_gt (distance_formula x y (get_x led) (get_y led)) m = false <->
  within x y m led.
Proof.
  unfold root_gt, within. rewrite orb_false_iff, !Qltb_ge. simpl. reflexivity.
Qed.

Lemma closest_step_invariant (x y m : Q) (seen : list LED)
    (st : option LED * root) (led : LED) :
  scan_invariant x y m seen st ->
  scan_invariant x y m (seen ++ [led]) (closest_step x y m st led).
Proof.
  unfold scan_invariant, closest_step. destruct st as [c d]. cbn [fst snd].
  intros Hinv.
  destruct (root_gt (distance_formula x y (get_x led) (get_y led)) m) eqn:Hgt.
  - assert (Hnot : ~ within x y m led).
    { intros Hw. apply root_gt_within in Hw. congruence. }
    cbn [fst snd]. destruct c as [c|].
    + destruct Hinv as (Hin & Hw & Hr & Hmin).
      split; [apply in_or_app; left; exact Hin|]. split; [exact Hw|].
      split; [exact Hr|]. intros led' Hin' Hw'.
      apply in_app_or in Hin'. destruct Hin' as [Hin'|[<-|[]]];
        [apply Hmin; assumption | contradiction].
    + intros led' Hin'. apply in_app_or in Hin'.
      destruct Hin' as [Hin'|[<-|[]]]; [apply Hinv; exact Hin' | exact Hnot].
  - apply root_gt_within in Hgt. destruct c as [c|].
    + destruct Hinv as (Hin & Hw & Hr & Hmin).
      destruct (root_lt (distance_formula x y (get_x led) (get_y led)) d)
        eqn:Hlt; cbn [fst snd].
      * apply Qltb_lt in Hlt. fold (sq_dist x y led) in Hlt. rewrite Hr in Hlt.
        split; [apply in_or_app; right; left; reflexivity|].
        split; [exact Hgt|]. split; [reflexivity|]. intros led' Hin' Hw'.
        apply in_app_or in Hin'. destruct Hin' as [Hin'|[<-|[]]].
        -- apply Qle_trans with (sq_dist x y c);
             [apply Qlt_le_weak; exact Hlt | apply Hmin; assumption].
        -- apply Qle_refl.
      * apply Qltb_ge in Hlt. fold (sq_dist x y led) in Hlt. rewrite Hr in Hlt.
        split; [apply in_or_app; left; exact Hin|]. split; [exact Hw|].
        split; [exact Hr|]. intros led' Hin' Hw'.
        apply in_app_or in Hin'. destruct Hin' as [Hin'|[<-|[]]];
          [apply Hmin; assumption | exact Hlt].
    + cbn [fst snd].
      split; [apply in_or_app; right; left; reflexivity|].
      split; [exact Hgt|]. split; [reflexivity|]. intros led' Hin' Hw'.
      apply in_app_or in Hin'. destruct Hin' as [Hin'|[<-|[]]].
      * elim (Hinv led' Hin'). exact Hw'.
      * apply Qle_refl.
Qed.

Lemma closest_fold_invariant (x y m : Q) (res : list LED) :
  forall seen st,
    scan_invariant x y m seen st ->
    scan_invariant x y m (seen ++ res) (fold_left (closest_step x y m) res st).
Proof.
  induction res as [|led res IH]; intros seen st Hinv; simpl.
  - rewrite app_nil_r. exact Hinv.
  - replace (seen ++ led :: res) with ((seen ++ [led]) ++ res)
      by (rewrite <- app_assoc; reflexivity).
    apply IH. apply closest_step_invariant. exact Hinv.
Qed.

(** The scan returns the index of a candidate within [m] that no candidate
    within [m] beats, and [None] exactly when no candidate is within [m]. *)
Lemma closest_scan_spec (x y m : Q) (res : list LED) :
  match closest_scan x y m res with
  | Some i =>
      exists c, In c res /\ _index c = i /\ within x y m c /\
                forall led, In led res -> within x y m led ->
                            sq_dist x y c <= sq_dist x y led
  | None => forall led, In led res -> ~ within x y m led
  end.
Proof.
  unfold closest_scan.
  pose proof (@closest_fold_invariant x y m res []
                (None, root_of_Q (inject_Z 9999999))) as Hinv.
  simpl app in Hinv. unfold scan_invariant at 2 in Hinv.
  destruct (fst (fold_left (closest_step x y m) res
                           (None, root_of_Q (inject_Z 9999999)))) as [c|].
  - destruct Hinv as (Hin & Hw & _ & Hmin); [intros led []|].
    exists c. auto.
  - apply Hinv. intros led [].
Qed.

Lemma sq_bound (a b m : Q) :
  0 <= m -> a * a + b * b <= m * m -> - m <= a /\ a <= m.
Proof.
  intros Hm H.
  assert (Hb : 0 <= b * b) by nra.
  split.
  - destruct (Qlt_le_dec a (- m)) as [Hlt|Hge]; [|exact Hge].
    exfalso.
    assert (0 < (- m - a) * (m - a)) by (apply Qmult_lt_0_compat; lra). nra.
  - destruct (Qlt_le_dec m a) as [Hlt|Hge]; [|exact Hge].
    exfalso.
    assert (0 < (a - m) * (a + m)) by (apply Qmult_lt_0_compat; lra). nra.
Qed.

Lemma within_in_box (x y m : Q) (led : LED) :
  within x y m led ->
  in_box (x - m * 2 / 2) (x + m * 2 / 2) (y - m * 2 / 2) (y + m * 2 / 2)
         (get_x led) (get_y led).
Proof.
  unfold within, in_box. intros (Hm & Hd).
  assert (E : m * 2 / 2 == m) by field. rewrite !E.
  destruct (@sq_bound (get_x led - x) (get_y led - y) m Hm Hd) as (Hx1 & Hx2).
  assert (Hd' : (get_y led - y) * (get_y led - y)
                + (get_x led - x) * (get_x led - x) <= m * m) by lra.
  destruct (@sq_bound (get_y led - y) (get_x led - x) m Hm Hd') as (Hy1 & Hy2).
  repeat split; lra.
Qed.

(** Under the box law, a Light within [m] of the point is a candidate. *)
Lemma within_in_area `{ES : ExternalsSpec} (L : list LED) (x y m : Q)
    (led : LED) :
  In led L -> within x y m led -> In led (area_of L x y (m * 2) (m * 2)).
Proof.
  intros Hin Hw. unfold area_of. apply filter_In. split; [exact Hin|].
  apply in_mask_box.
  - destruct Hw as (Hm & _). assert (Em : m * 2 / 2 == m) by field.
    rewrite !Em. lra.
  - destruct Hw as (Hm & _). assert (Em : m * 2 / 2 == m) by field.
    rewrite !Em. lra.
  - apply within_in_box. exact Hw.
Qed.

Lemma closest_of_spec `{ES : ExternalsSpec} (L : list LED) (x y : Q)
    (md : option Q) :
  let m := match md with Some m => m | None => default_max_distance end in
  (forall i, closest_of L x y md = Some i ->
             exists led, In led L /\ _index led = i /\ within x y m led /\
                         forall led', In led' L -> within x y m led' ->
                                      sq_dist x y led <= sq_dist x y led') /\
  (closest_of L x y md = None <->
   forall led, In led L -> ~ within x y m led).
Proof.
  intros m. unfold closest_of. fold m.
  pose proof (closest_scan_spec x y m (area_of L x y (m * 2) (m * 2))) as Hs.
  destruct (closest_scan x y m (area_of L x y (m * 2) (m * 2))) as [i|].
  - destruct Hs as (c & Hin & Hi & Hw & Hmin).
    assert (HcL : In c L) by (unfold area_of in Hin; apply filter_In in Hin; tauto).
    split.
    + intros i' [= <-]. exists c.
      split; [exact HcL|]. split; [exact Hi|]. split; [exact Hw|].
      intros led' Hin' Hw'. apply Hmin; [|exact Hw'].
      apply within_in_area; assumption.
    + split; [discriminate|]. intros Hnone. elim (Hnone c HcL). exact Hw.
  - split; [discriminate|]. split; [|reflexivity].
    intros _ led Hin Hw. apply (Hs led); [|exact Hw].
    apply within_in_area; assumption.
Qed.

(** ** C2: the closest Light *)

Lemma remapped_world_mapped : mapped remapped_world.
Proof. vm_compute. repeat constructor. Qed.

(** On caches that agree with the Light set the call returns what the scan
    computes from the Light set. *)
Lemma get_closest_LED_index_returns `{ES : ExternalsSpec} (x y : Q)
    (max_distance : option Q) (w : world) :
  mapped w -> coherent w ->
  exists w',
    get_closest_LED_index x y max_distance w =
    Returned (closest_of (lights w) x y max_distance) w'.
Proof.
  intros Hm Hcoh.
  destruct (run_query_refines (QClosest x y max_distance) w Hm)
    as (w' & Hr & _ & _).
  destruct (@query_step_coherent _ _ (self_id (self w)) (lights w) (caches w)
              (QClosest x y max_distance) Hcoh) as (Hv & _).
  rewrite Hv in Hr. cbn [run_query computed_from] in Hr.
  unfold bind, ret in Hr.
  destruct (get_closest_LED_index x y max_distance w) as [r w1|e w1];
    [|discriminate Hr].
  injection Hr as Hr _. exists w1. rewrite Hr. reflexivity.
Qed.

(** C2, as stated, fails: [map_LEDs_in_zigzag] keeps the caches, so that on
    an [LEDSpace] mapped with [[1]], queried, and mapped again with [[2, 3]],
    the repeated query answers index 0 from the cache, although Light 0 now
    sits at (0.5, 0), farther than 0.1 from (0, 0). *)
Lemma closest_answer_can_be_stale :
  ~ (forall (E : Externals), ExternalsSpec E ->
     forall (w : world) (x y m : Q) (i : Z),
       mapped w ->
       returned_value (get_closest_LED_index x y (Some m) w) = Some (Some i) ->
       exists led, In led (lights w) /\ _index led = i /\ within x y m led).
Proof.
  intros H.
  destruct (H sample_externals sample_externals_spec remapped_world
              0 0 (1 # 10) 0%Z remapped_world_mapped)
    as (led & Hin & Hi & (_ & Hd)).
  - vm_compute. reflexivity.
  - vm_compute in Hin.
    repeat (destruct Hin as [<-|Hin]; [try discriminate Hi|]);
      [|contradiction].
    vm_compute in Hd. apply Hd. reflexivity.
Qed.

(** C2, amended to an [LEDSpace] none of whose cache entries was memoized
    against another Light set (as after [clear_caches]).  The call returns;
    an index it returns is that of a mapped Light within [max_distance] of
    [(x, y)], no mapped Light within [max_distance] being closer; and it
    returns [None] exactly when no mapped Light is within [max_distance]. *)
Theorem closest_within_max_distance `{ES : ExternalsSpec} (w : world)
    (x y : Q) (max_distance : option Q) :
  mapped w -> coherent w ->
  let m := match max_distance with
           | Some m => m
           | None => default_max_distance
           end in
  exists r w',
    get_closest_LED_index x y max_distance w = Returned r w' /\
    (forall i, r = Some i ->
               exists led, In led (lights w) /\ _index led = i /\
                           within x y m led /\
                           forall led', In led' (lights w) ->
                                        within x y m led' ->
                                        sq_dist x y led <= sq_dist x y led') /\
    (r = None <-> forall led, In led (lights w) -> ~ within x y m led).
Proof.
  intros Hm Hcoh m.
  destruct (get_closest_LED_index_returns x y max_distance Hm Hcoh)
    as (w' & Hr).
  exists (closest_of (lights w) x y max_distance), w'.
  split; [exact Hr|]. apply closest_of_spec.
Qed.

Lemma world_2_3_coherent : @coherent sample_externals world_2_3.
Proof. apply coherent_empty. Qed.

Lemma closest_within_max_distance_witness :
  exists r w',
    @get_closest_LED_index sample_externals (1 # 2) (1 # 2) None world_2_3
    = Returned r w' /\
    (r = None <->
     forall led, In led (lights world_2_3) ->
                 ~ within (1 # 2) (1 # 2) default_max_distance led).
Proof.
  destruct (@closest_within_max_distance sample_externals sample_externals_spec
              world_2_3 (1 # 2) (1 # 2) None world_2_3_mapped
              world_2_3_coherent) as (r & w' & Hr & _ & Hnone).
  exists r, w'. split; [exact Hr | exact Hnone].
Defined.

(** ** C4: the layout [[2, 3]] *)

Lemma in_box_b_iff (l r b t px py : Q) :
  in_box_b l r b t px py = true <-> in_box l r b t px py.
Proof.
  unfold in_box_b, in_box. rewrite !andb_true_iff, !Qle_bool_iff. tauto.
Qed.

(** Under the box law the candidates of a box of non-negative width and
    height are the Lights of the closed box. *)
Lemma area_of_box `{ES : ExternalsSpec} (L : list LED) (x y width height : Q) :
  0 <= width -> 0 <= height ->
  area_of L x y width height =
  filter (fun led => in_box_b (x - width / 2) (x + width / 2)
                              (y - height / 2) (y + height / 2)
                              (get_x led) (get_y led)) L.
Proof.
  intros Hw Hh. unfold area_of. apply filter_ext. intros led.
  assert (Ew : width / 2 == width * (1 # 2)) by field.
  assert (Eh : height / 2 == height * (1 # 2)) by field.
  apply eq_true_iff_eq. rewrite in_box_b_iff. apply in_mask_box.
  - rewrite Ew. lra.
  - rewrite Eh. lra.
Qed.

(** C4.  On a fresh [LEDSpace], [map_LEDs_in_zigzag([2, 3])] returns with
    five Lights: indices 0 and 1 at x = 0.5 and x = 0 with y in [0, 0.5),
    indices 2, 3, 4 at x = 0, 1/3, 2/3 (0.333 and 0.667 to three decimals)
    with y in [0.5, 1); and [get_closest_LED_index(0.0, 0.6, 0.1)] then
    returns index 2. *)
Theorem layout_2_3_scenario `{ES : ExternalsSpec} :
  map_LEDs_in_zigzag [2; 3]%Z fresh_world = Returned tt world_2_3 /\
  exists l0 l1 l2 l3 l4 w',
    lights world_2_3 = [l0; l1; l2; l3; l4] /\
    map _index (lights world_2_3) = [0; 1; 2; 3; 4]%Z /\
    (get_x l0 == 1 # 2 /\ get_x l1 == 0) /\
    (0 <= get_y l0 /\ get_y l0 < 1 # 2 /\ 0 <= get_y l1 /\ get_y l1 < 1 # 2) /\
    (get_x l2 == 0 /\ get_x l3 == 1 # 3 /\ get_x l4 == 2 # 3) /\
    (Qabs (get_x l3 - (333 # 1000)) < 1 # 1000 /\
     Qabs (get_x l4 - (667 # 1000)) < 1 # 1000) /\
    (1 # 2 <= get_y l2 /\ get_y l2 < 1 /\ 1 # 2 <= get_y l3 /\ get_y l3 < 1 /\
     1 # 2 <= get_y l4 /\ get_y l4 < 1) /\
    get_closest_LED_index 0 (6 # 10) (Some (1 # 10)) world_2_3 =
    Returned (Some 2%Z) w'.
Proof.
  split; [reflexivity|].
  destruct (get_closest_LED_index_returns 0 (6 # 10) (Some (1 # 10))
              world_2_3_mapped (coherent_empty _ _)) as (w' & Hr).
  assert (Hc : closest_of (lights world_2_3) 0 (6 # 10) (Some (1 # 10))
               = Some 2%Z).
  { unfold closest_of. rewrite area_of_box by (vm_compute; discriminate).
    vm_compute. reflexivity. }
  rewrite Hc in Hr.
  do 5 eexists. exists w'.
  split; [vm_compute; reflexivity|].
  split; [vm_compute; reflexivity|].
  split; [split; vm_compute; reflexivity|].
  split; [repeat split; vm_compute; try reflexivity; discriminate|].
  split; [repeat split; vm_compute; reflexivity|].
  split; [split; vm_compute; reflexivity|].
  split; [repeat split; vm_compute; try reflexivity; discriminate|].
  exact Hr.
Qed.

Lemma layout_2_3_scenario_witness :
  exists w',
    @get_closest_LED_index sample_externals 0 (6 # 10) (Some (1 # 10)) world_2_3
    = Returned (Some 2%Z) w'.
Proof.
  destruct (@layout_2_3_scenario sample_externals sample_externals_spec)
    as (_ & l0 & l1 & l2 & l3 & l4 & w' & _ & _ & _ & _ & _ & _ & _ & Hr).
  exists w'. exact Hr.
Defined.

(** ** C1: remapping and the caches *)

Lemma queried_world_mapped : mapped queried_world.
Proof. vm_compute. repeat constructor. Qed.

(** C1, as stated, fails: [map_LEDs_in_zigzag] does not touch the caches.
    On an [LEDSpace] mapped with [[1]], queried, and mapped again with
    [[2, 3]], the repeated query for the whole square still answers the one
    Light of the previous layout. *)
Lemma remapping_keeps_cached_answers :
  ~ (forall (E : Externals), ExternalsSpec E ->
     forall (l : list Z) (w : world) (q : query),
       mapped w -> l <> [] ->
       returned_value (run_query q (final_state (map_LEDs_in_zigzag l w))) =
       Some (computed_from (lights (final_state (map_LEDs_in_zigzag l w))) q)).
Proof.
  intros H.
  specialize (H sample_externals sample_externals_spec [2; 3]%Z queried_world
                (QArea (1 # 2) (1 # 2) 1 1) queried_world_mapped).
  assert (Hne : [2; 3]%Z <> []) by discriminate.
  specialize (H Hne). vm_compute in H. discriminate H.
Qed.

(** Sequences of queries on caches that agree with the Light set. *)
Lemma run_queries_coherent `{ES : ExternalsSpec} (qs : list query) (w : world) :
  mapped w -> coherent w ->
  exists w',
    run_queries qs w = Returned (map (computed_from (lights w)) qs) w' /\
    same_view w w' /\ coherent w'.
Proof.
  intros Hm Hcoh.
  destruct (run_queries_refines qs w Hm) as (w' & Hr & Hv & Hc).
  destruct (@queries_steps_coherent _ _ (self_id (self w)) (lights w) qs
              (caches w) Hcoh) as (Ha & Hcoh').
  rewrite Ha in Hr. exists w'. split; [exact Hr|]. split; [exact Hv|].
  destruct Hv as (Hid & Hl & _). unfold coherent. rewrite Hid, Hl, Hc.
  exact Hcoh'.
Qed.

(** C1, amended.  [map_LEDs_in_zigzag] leaves the caches as they are; it is
    [clear_caches] that invalidates them.  After [map_LEDs_in_zigzag] with a
    non-empty layout followed by [clear_caches], every query of every
    subsequent sequence of queries returns what it computes from the new
    Light set. *)
Theorem queries_after_map_and_clear `{ES : ExternalsSpec} (l : list Z)
    (w : world) (qs : list query) :
  l <> [] ->
  exists w1 w2 w3,
    map_LEDs_in_zigzag l w = Returned tt w1 /\
    caches w1 = caches w /\
    clear_caches w1 = Returned tt w2 /\
    run_queries qs w2 = Returned (map (computed_from (lights w1)) qs) w3.
Proof.
  intros Hl.
  destruct (@map_LEDs_in_zigzag_returns l w Hl)
    as (rh & q & _ & Hmap & _ & Hsq & _).
  set (w1 := set_quadtree (Some q) w) in *.
  set (w2 := set_caches empty_caches w1).
  assert (Hm2 : mapped w2).
  { unfold mapped. simpl. eapply Forall_impl; [|exact Hsq].
    apply in_unit_square_in_domain. }
  assert (Hc2 : coherent w2) by apply coherent_empty.
  destruct (run_queries_coherent qs Hm2 Hc2) as (w3 & Hr & _).
  exists w1, w2, w3. repeat split; assumption.
Qed.

Lemma queries_after_map_and_clear_witness :
  exists w1 w2 w3,
    map_LEDs_in_zigzag [2; 3]%Z queried_world = Returned tt w1 /\
    caches w1 = caches queried_world /\
    clear_caches w1 = Returned tt w2 /\
    @run_queries sample_externals [QArea (1 # 2) (1 # 2) 1 1] w2 =
    Returned (map (@computed_from sample_externals (lights w1))
                  [QArea (1 # 2) (1 # 2) 1 1]) w3.
Proof.
  apply (@queries_after_map_and_clear sample_externals sample_externals_spec
           [2; 3]%Z queried_world [QArea (1 # 2) (1 # 2) 1 1]).
  discriminate.
Defined.

(** ** C8: the two lifecycle states *)

(** C8 at its failing input: [map_LEDs_in_zigzag] on a detached [LEDSpace]
    builds a quadtree and keeps the saved list, so that both are populated;
    a later [restore_quadtree] then puts the five saved Lights of the
    previous layout back in place of the Light just mapped. *)
Theorem remap_while_detached_both_populated :
  let detached_world :=
    final_state (@save_quadtree_values_in_list sample_externals world_2_3) in
  let w := final_state (map_LEDs_in_zigzag [1]%Z detached_world) in
  detached (self detached_world) /\
  map_LEDs_in_zigzag [1]%Z detached_world = Returned tt w /\
  both_populated (self w) /\
  map _index (lights w) = [0]%Z /\
  map _index (lights (final_state (restore_quadtree w))) = [0; 1; 2; 3; 4]%Z.
Proof.
  cbv zeta. split; [split; [reflexivity | discriminate]|].
  split; [reflexivity|].
  split; [split; discriminate|].
  split; vm_compute; reflexivity.
Qed.

(** Apart from that, the methods keep the object attached or detached. *)
Lemma lifecycle_init (id : nat) : lifecycle (LEDSpace_init id).
Proof. left. split; [discriminate | reflexivity]. Qed.

Lemma lifecycle_save `{Externals} (w : world) :
  lifecycle (self w) ->
  lifecycle (self (final_state (save_quadtree_values_in_list w))).
Proof.
  destruct w as [[id [q|] [vs|]] cs]; simpl;
    intros [(Hq & Hs)|(Hq & Hs)]; try discriminate;
    try (now elim Hq); try (now elim Hs);
    right; (split; [reflexivity | discriminate]).
Qed.

Lemma lifecycle_restore (w : world) :
  lifecycle (self w) -> lifecycle (self (final_state (restore_quadtree w))).
Proof.
  destruct w as [[id [q|] [vs|]] cs]; simpl;
    intros [(Hq & Hs)|(Hq & Hs)]; try discriminate;
    try (now elim Hq); try (now elim Hs);
    left; (split; [discriminate | reflexivity]).
Qed.

Lemma lifecycle_map_attached (l : list Z) (w : world) :
  attached (self w) ->
  attached (self (final_state (map_LEDs_in_zigzag l w))).
Proof.
  intros (_ & Hs). unfold map_LEDs_in_zigzag.
  destruct (row_height l); simpl; (split; [discriminate | exact Hs]).
Qed.

(** ** C6: the scoped indexing helpers *)

(** C6, as stated, fails: a block that raises leaves the indexing the helper
    installed; here [with_row] on a linear ceiling ends with row indexing. *)
Lemma raising_block_skips_restore :
  ~ (forall (IC : ceiling.IndexingClasses) (h : ceiling.helper)
            (block : M ceiling.Ceiling unit) (c : ceiling.Ceiling),
        ceiling._indexing (final_state (ceiling.call_helper h block c)) =
        ceiling._indexing c).
Proof.
  intros H.
  specialize (H ceiling.sample_classes ceiling.WithRow
                (raise (BlockError 0)) ceiling.sample_ceiling).
  vm_compute in H. discriminate H.
Qed.

Lemma assign_indexing_raises `{ceiling.IndexingClasses}
    (mk : ceiling.Ceiling -> exn + ceiling.Indexing)
    (k : M ceiling.Ceiling unit) (c : ceiling.Ceiling) (e : exn)
    (c' : ceiling.Ceiling) :
  bind (ceiling.assign_indexing mk) (fun _ => k) c = Raised e c' ->
  (forall c1 e1 c2, k c1 <> Raised e1 c2) -> c' = c.
Proof.
  unfold bind, ceiling.assign_indexing. destruct (mk c) as [e0|ix].
  - intros [= _ <-] _. reflexivity.
  - intros Hk Hnever. elim (Hnever _ _ _ Hk).
Qed.

(** A [use_*] call that raises has assigned nothing. *)
Lemma use_of_raises `{ceiling.IndexingClasses} (h : ceiling.helper)
    (c : ceiling.Ceiling) (e : exn) (c' : ceiling.Ceiling) :
  ceiling.use_of h c = Raised e c' -> c' = c.
Proof.
  assert (Hrem : forall c1 e1 c2,
             ceiling.remember_led_spacing c1 <> Raised e1 c2)
    by (intros c1 e1 c2; discriminate).
  destruct h as [| |rows sr|origin rows sr|rows er|origin rows er];
    cbn [ceiling.use_of].
  - unfold ceiling.use_linear, ceiling.assign_indexing.
    destruct (ceiling.LinearIndexing (ceiling._pixels c));
      [intros [= _ <-]; reflexivity | discriminate].
  - unfold ceiling.use_row, ceiling.assign_indexing.
    destruct (ceiling.RowIndexing (ceiling._pixels c)
                                  ceiling.CEILING_ROW_ARRANGEMENT);
      [intros [= _ <-]; reflexivity | discriminate].
  - intros Hr. eapply assign_indexing_raises; [exact Hr | exact Hrem].
  - unfold ceiling.use_polar. destruct (Nat.eqb (length origin) 2).
    + intros Hr. eapply assign_indexing_raises; [exact Hr | exact Hrem].
    + intros [= _ <-]. reflexivity.
  - intros Hr. eapply assign_indexing_raises; [exact Hr | exact Hrem].
  - intros Hr. eapply assign_indexing_raises; [exact Hr | exact Hrem].
Qed.

Lemma call_helper_with_strategy `{ceiling.IndexingClasses}
    (h : ceiling.helper) (block : M ceiling.Ceiling unit) :
  ceiling.call_helper h block = ceiling.with_strategy (ceiling.use_of h) block.
Proof. destruct h; reflexivity. Qed.

(** C6, amended.  Each of the six helpers runs its [use_*] call, then the
    block, and restores the previous indexing when the block returns.  When
    the [use_*] call raises, the ceiling is as it was, previous indexing
    included.  When the block raises, the exception propagates with the
    state the block left: the helper restores nothing. *)
Theorem with_helpers_restore_on_return `{ceiling.IndexingClasses}
    (h : ceiling.helper) (block : M ceiling.Ceiling unit)
    (c : ceiling.Ceiling) :
  ceiling.call_helper h block c =
  match ceiling.use_of h c with
  | Raised e _ => Raised e c
  | Returned _ c1 =>
      match block c1 with
      | Returned _ c2 =>
          Returned tt (ceiling.set_indexing (ceiling._indexing c) c2)
      | Raised e c2 => Raised e c2
      end
  end.
Proof.
  rewrite call_helper_with_strategy.
  unfold ceiling.with_strategy, bind, get_state, put_state.
  destruct (ceiling.use_of h c) as [[] c1|e c1] eqn:Hu.
  - destruct (block c1) as [[] c2|e c2]; reflexivity.
  - rewrite (use_of_raises h c Hu). reflexivity.
Qed.

(* ===================================================================== *)
(** * Further properties of the code *)
(* ===================================================================== *)

(** ** The geometry of the zig-zag *)

Lemma nth_error_range (n : Z) (k : nat) :
  (k < Z.to_nat n)%nat -> nth_error (range n) k = Some (Z.of_nat k).
Proof.
  intros Hk. unfold range. rewrite nth_error_map, nth_error_seq.
  destruct (Nat.ltb_spec k (Z.to_nat n)); [reflexivity | lia].
Qed.

Lemma row_leds_length (rh : Q) (i n index : Z) :
  length (row_leds rh i n index) = Z.to_nat n.
Proof. unfold row_leds. rewrite length_map, range_length. reflexivity. Qed.

Lemma row_start_nonneg (l : list Z) (i : nat) : (0 <= row_start l i)%Z.
Proof. unfold row_start. apply sum_max_nonneg. Qed.

Lemma row_start_succ (n : Z) (rest : list Z) (i : nat) :
  row_start (n :: rest) (S i) = (Z.max 0 n + row_start rest i)%Z.
Proof. reflexivity. Qed.

(** The Light at place [row_start + j] of the list is the one the loop
    builds for ordinal [j] of row [i]. *)
Lemma zigzag_list_nth (rh : Q) (rows : list Z) :
  forall (i0 index : Z) (i : nat) (n j : Z),
    nth_error rows i = Some n -> (0 <= j < n)%Z ->
    nth_error (zigzag_list rh i0 index rows) (Z.to_nat (row_start rows i + j)) =
    Some (zigzag_led rh (i0 + Z.of_nat i) n j (index + row_start rows i + j)).
Proof.
  induction rows as [|n0 rest IH]; intros i0 index i n j Hn Hj.
  - destruct i; discriminate Hn.
  - destruct i as [|i]; cbn [zigzag_list].
    + injection Hn as ->. change (row_start (n :: rest) 0) with 0%Z.
      rewrite Z.add_0_l, nth_error_app1
        by (rewrite row_leds_length; lia).
      unfold row_leds.
      rewrite (map_nth_error _ _ _
                 (@nth_error_range n (Z.to_nat j) ltac:(lia))).
      rewrite Z2Nat.id by lia. do 2 f_equal; lia.
    + simpl in Hn. rewrite row_start_succ.
      pose proof (row_start_nonneg rest i) as Hs.
      rewrite nth_error_app2 by (rewrite row_leds_length; lia).
      rewrite row_leds_length.
      replace (Z.to_nat (Z.max 0 n0 + row_start rest i + j) - Z.to_nat n0)%nat
        with (Z.to_nat (row_start rest i + j)) by lia.
      rewrite (IH (i0 + 1)%Z (index + Z.max 0 n0)%Z i n j Hn Hj).
      do 2 f_equal; lia.
Qed.

Lemma truediv_increasing (j j' n : Z) :
  (j < j')%Z -> (0 < n)%Z -> truediv j n < truediv j' n.
Proof.
  intros Hj Hn. unfold truediv, Qdiv. apply Qmult_lt_compat_r.
  - apply Qinv_lt_0_compat. apply inject_Z_pos. exact Hn.
  - rewrite <- Zlt_Qlt. exact Hj.
Qed.

Lemma inject_Z_succ_mult (i : Z) (rh : Q) :
  inject_Z (i + 1) * rh == inject_Z i * rh + rh.
Proof. rewrite inject_Z_plus. change (inject_Z 1) with 1. ring. Qed.

Lemma zigzag_led_band (rh : Q) (i n j index : Z) :
  0 < rh -> (0 <= j < n)%Z ->
  inject_Z i * rh <= get_y (zigzag_led rh i n j index) /\
  get_y (zigzag_led rh i n j index) < inject_Z (i + 1) * rh.
Proof.
  intros Hrh Hj. rewrite inject_Z_succ_mult.
  assert (Hq0 : 0 <= truediv j n) by (apply truediv_nonneg; lia).
  assert (Hq1 : truediv j n < 1) by (apply truediv_lt_1; lia).
  assert (Hy0 : 0 <= truediv j n * rh) by (apply Qmult_le_0_compat; lra).
  assert (Hy1 : truediv j n * rh < 1 * rh)
    by (apply Qmult_lt_compat_r; assumption).
  unfold zigzag_led. destruct (i mod 2 =? 0)%Z; unfold get_y; simpl; lra.
Qed.

Lemma zigzag_led_direction (rh : Q) (i n j j' index index' : Z) :
  (0 <= j < j')%Z -> (j' < n)%Z ->
  if (i mod 2 =? 0)%Z
  then get_x (zigzag_led rh i n j' index') < get_x (zigzag_led rh i n j index)
  else get_x (zigzag_led rh i n j index) < get_x (zigzag_led rh i n j' index').
Proof.
  intros Hj Hj'. unfold zigzag_led.
  destruct (i mod 2 =? 0)%Z; unfold get_x; simpl.
  - pose proof (@truediv_increasing (j + 1) (j' + 1) n) as H.
    assert (truediv (j + 1) n < truediv (j' + 1) n) by (apply H; lia). lra.
  - apply truediv_increasing; lia.
Qed.

Lemma FOP_app {A : Type} (R : A -> A -> Prop) (l1 l2 : list A) :
  ForallOrdPairs R l1 -> ForallOrdPairs R l2 ->
  (forall a b, In a l1 -> In b l2 -> R a b) ->
  ForallOrdPairs R (l1 ++ l2).
Proof.
  intros H1 H2 H12. induction H1 as [|a l1 Ha _ IH]; simpl; [exact H2|].
  constructor.
  - apply Forall_app. split; [exact Ha|].
    apply Forall_forall. intros b Hb. apply H12; [left; reflexivity | exact Hb].
  - apply IH. intros x b Hx Hb. apply H12; [right; exact Hx | exact Hb].
Qed.

Lemma FOP_map {A B : Type} (R : A -> A -> Prop) (R' : B -> B -> Prop)
    (f : A -> B) (l : list A) :
  (forall a b, In a l -> In b l -> R a b -> R' (f a) (f b)) ->
  ForallOrdPairs R l -> ForallOrdPairs R' (map f l).
Proof.
  intros Hf H. induction H as [|a l Ha Hl IH]; simpl; constructor.
  - apply Forall_map. rewrite Forall_forall in *. intros b Hb.
    apply Hf; [left; reflexivity | right; exact Hb | apply Ha; exact Hb].
  - apply IH. intros x y Hx Hy. apply Hf; right; assumption.
Qed.

Lemma FOP_range (n : Z) : ForallOrdPairs Z.lt (range n).
Proof.
  unfold range. generalize 0%nat as s. generalize (Z.to_nat n) as m.
  induction m as [|m IH]; intros s; simpl; constructor.
  - apply Forall_map. apply Forall_forall. intros k Hk.
    apply in_seq in Hk. lia.
  - apply IH.
Qed.

Lemma row_leds_climbs (rh : Q) (i n index : Z) :
  0 < rh -> ForallOrdPairs climbs (row_leds rh i n index).
Proof.
  intros Hrh. unfold row_leds.
  apply (FOP_map (R := Z.lt)); [|apply FOP_range].
  intros j j' Hj Hj' Hlt. apply in_range in Hj, Hj'. split.
  - unfold zigzag_led. destruct (i mod 2 =? 0)%Z; simpl; lia.
  - assert (Ht : truediv j n * rh < truediv j' n * rh).
    { apply Qmult_lt_compat_r; [exact Hrh|].
      apply truediv_increasing; lia. }
    unfold zigzag_led. destruct (i mod 2 =? 0)%Z; unfold get_y; simpl; lra.
Qed.

Lemma row_leds_bounds (rh : Q) (i n index : Z) (led : LED) :
  0 < rh -> In led (row_leds rh i n index) ->
  (index <= _index led < index + Z.max 0 n)%Z /\
  inject_Z i * rh <= get_y led /\ get_y led < inject_Z (i + 1) * rh.
Proof.
  intros Hrh Hin. unfold row_leds in Hin. apply in_map_iff in Hin.
  destruct Hin as (j & <- & Hj). apply in_range in Hj. split.
  - unfold zigzag_led. destruct (i mod 2 =? 0)%Z; simpl; lia.
  - apply zigzag_led_band; assumption.
Qed.

Lemma zigzag_list_bounds (rh : Q) (rows : list Z) :
  0 < rh ->
  forall (i index : Z) (led : LED),
    (0 <= i)%Z -> In led (zigzag_list rh i index rows) ->
    (index <= _index led)%Z /\ inject_Z i * rh <= get_y led.
Proof.
  intros Hrh. induction rows as [|n rest IH]; intros i index led Hi Hin;
    [contradiction|].
  cbn [zigzag_list] in Hin. apply in_app_or in Hin. destruct Hin as [Hin|Hin].
  - destruct (@row_leds_bounds rh i n index led Hrh Hin) as (Hidx & Hy & _).
    split; [lia | exact Hy].
  - destruct (IH (i + 1)%Z (index + Z.max 0 n)%Z led ltac:(lia) Hin)
      as (Hidx & Hy).
    rewrite inject_Z_succ_mult in Hy. split; [lia | lra].
Qed.

Lemma zigzag_list_climbs (rh : Q) (rows : list Z) :
  0 < rh ->
  forall (i index : Z),
    (0 <= i)%Z -> ForallOrdPairs climbs (zigzag_list rh i index rows).
Proof.
  intros Hrh. induction rows as [|n rest IH]; intros i index Hi;
    cbn [zigzag_list]; [constructor|].
  apply FOP_app.
  - apply row_leds_climbs. exact Hrh.
  - apply IH. lia.
  - intros a b Ha Hb.
    destruct (@row_leds_bounds rh i n index a Hrh Ha) as (Hia & _ & Hya).
    destruct (@zigzag_list_bounds rh rest Hrh (i + 1)%Z
                (index + Z.max 0 n)%Z b ltac:(lia) Hb) as (Hib & Hyb).
    split; [lia | lra].
Qed.

(** What [map_LEDs_in_zigzag] leaves on a non-empty layout, with the row
    height it used. *)
Lemma map_LEDs_in_zigzag_content (l : list Z) (w : world) :
  l <> [] ->
  exists rh q,
    row_height l = inr rh /\ 0 < rh /\
    map_LEDs_in_zigzag l w = Returned tt (set_quadtree (Some q) w) /\
    qt_points q = zigzag_list rh 0 0 l.
Proof.
  intros Hl.
  destruct (@map_LEDs_in_zigzag_returns l w Hl) as (rh & q & Hrh & Hm & Hp & _).
  destruct (row_height_cases l) as [(E & _)|(_ & rh' & Hrh' & Hpos & _)];
    [contradiction|].
  rewrite Hrh in Hrh'. injection Hrh' as <-.
  exists rh, q. auto.
Qed.

(** X1.  After [map_LEDs_in_zigzag] on a non-empty layout, the Light of
    ordinal [j] in row [i] is stored at place [row_start + j], carries that
    number as its index, and sits at [x = 1 - (j + 1) / n] in an even row,
    [x = j / n] in an odd row, and [y = i * row_height + (j / n) * row_height],
    where [n] is the length of the row. *)
Theorem light_of_row_and_ordinal (l : list Z) (w : world) (i : nat) (n j : Z) :
  nth_error l i = Some n -> (0 <= j < n)%Z ->
  exists rh q led,
    row_height l = inr rh /\
    map_LEDs_in_zigzag l w = Returned tt (set_quadtree (Some q) w) /\
    nth_error (qt_points q) (Z.to_nat (row_start l i + j)) = Some led /\
    _index led = (row_start l i + j)%Z /\
    get_x led = (if Z.even (Z.of_nat i) then 1 - truediv (j + 1) n
                 else truediv j n) /\
    get_y led = inject_Z (Z.of_nat i) * rh + truediv j n * rh.
Proof.
  intros Hn Hj.
  assert (Hl : l <> []) by (intros ->; destruct i; discriminate Hn).
  destruct (@map_LEDs_in_zigzag_content l w Hl) as (rh & q & Hrh & _ & Hm & Hp).
  exists rh, q, (zigzag_led rh (Z.of_nat i) n j (row_start l i + j)).
  split; [exact Hrh|]. split; [exact Hm|]. split.
  - rewrite Hp. apply (zigzag_list_nth rh l 0 0 i Hn Hj).
  - unfold zigzag_led.
    assert (E : (Z.of_nat i mod 2 =? 0)%Z = Z.even (Z.of_nat i)).
    { rewrite Zeven_mod. reflexivity. }
    rewrite E. destruct (Z.even (Z.of_nat i)); simpl; auto.
Qed.

Lemma light_of_row_and_ordinal_witness :
  exists rh q led,
    row_height [2; 3]%Z = inr rh /\
    map_LEDs_in_zigzag [2; 3]%Z fresh_world =
    Returned tt (set_quadtree (Some q) fresh_world) /\
    nth_error (qt_points q) 3 = Some led /\
    _index led = 3%Z /\
    get_x led = truediv 1 3 /\
    get_y led = inject_Z 1 * rh + truediv 1 3 * rh.
Proof.
  apply (@light_of_row_and_ordinal [2; 3]%Z fresh_world 1 3%Z 1%Z);
    [reflexivity | lia].
Defined.

(** X2.  Whatever the layout, the strip climbs: of two Lights stored by
    [map_LEDs_in_zigzag], the one with the larger index is strictly higher,
    so that no two Lights share a position or an index. *)
Theorem higher_index_is_higher (l : list Z) (w : world) :
  exists q,
    _quadtree (self (final_state (map_LEDs_in_zigzag l w))) = Some q /\
    forall a b,
      In a (qt_points q) -> In b (qt_points q) ->
      ((_index a < _index b)%Z -> get_y a < get_y b) /\
      (_index a = _index b -> a = b) /\
      (get_y a == get_y b -> a = b).
Proof.
  destruct l as [|n rest].
  - exists (Quadtree_new (1 # 2) (1 # 2) 1 1). split; [reflexivity|].
    intros a b [].
  - destruct (@map_LEDs_in_zigzag_content (n :: rest) w ltac:(discriminate))
      as (rh & q & _ & Hrh & Hm & Hp).
    exists q. rewrite Hm. split; [reflexivity|].
    pose proof (@zigzag_list_climbs rh (n :: rest) Hrh 0 0 ltac:(lia)) as Hc.
    rewrite <- Hp in Hc. intros a b Ha Hb.
    destruct (ForallOrdPairs_In Hc a b Ha Hb) as [->|[(Hi & Hy)|(Hi & Hy)]].
    + repeat split; try reflexivity. intros H. lia.
    + repeat split; [intros _; exact Hy | intros H; lia |].
      intros H. rewrite H in Hy. elim (Qlt_irrefl _ Hy).
    + repeat split; [intros H; lia | intros H; lia |].
      intros H. rewrite H in Hy. elim (Qlt_irrefl _ Hy).
Qed.

(** X3.  Rows alternate direction: of two Lights of the same row, the later
    one is further left in an even row and further right in an odd row; both
    lie in the band [i * row_height <= y < (i + 1) * row_height] of their
    row. *)
Theorem rows_alternate_direction (l : list Z) (w : world) (i : nat)
    (n j j' : Z) :
  nth_error l i = Some n -> (0 <= j < j')%Z -> (j' < n)%Z ->
  exists rh q a b,
    row_height l = inr rh /\
    _quadtree (self (final_state (map_LEDs_in_zigzag l w))) = Some q /\
    nth_error (qt_points q) (Z.to_nat (row_start l i + j)) = Some a /\
    nth_error (qt_points q) (Z.to_nat (row_start l i + j')) = Some b /\
    (if Z.even (Z.of_nat i) then get_x b < get_x a else get_x a < get_x b) /\
    (inject_Z (Z.of_nat i) * rh <= get_y a /\
     get_y a < get_y b /\
     get_y b < inject_Z (Z.of_nat i + 1) * rh).
Proof.
  intros Hn Hj Hj'.
  assert (Hl : l <> []) by (intros ->; destruct i; discriminate Hn).
  destruct (@map_LEDs_in_zigzag_content l w Hl) as (rh & q & Hrh & Hpos & Hm & Hp).
  exists rh, q, (zigzag_led rh (Z.of_nat i) n j (row_start l i + j)),
    (zigzag_led rh (Z.of_nat i) n j' (row_start l i + j')).
  split; [exact Hrh|]. rewrite Hm. split; [reflexivity|].
  split; [rewrite Hp; apply (zigzag_list_nth rh l 0 0 i Hn); lia|].
  split; [rewrite Hp; apply (zigzag_list_nth rh l 0 0 i Hn); lia|].
  split.
  - rewrite Zeven_mod. apply zigzag_led_direction; assumption.
  - destruct (@zigzag_led_band rh (Z.of_nat i) n j (row_start l i + j) Hpos
                ltac:(lia)) as (Ha0 & _).
    destruct (@zigzag_led_band rh (Z.of_nat i) n j' (row_start l i + j') Hpos
                ltac:(lia)) as (_ & Hb1).
    split; [exact Ha0|]. split; [|exact Hb1].
    assert (Ht : truediv j n * rh < truediv j' n * rh).
    { apply Qmult_lt_compat_r; [exact Hpos|].
      apply truediv_increasing; lia. }
    unfold zigzag_led.
    destruct (Z.of_nat i mod 2 =? 0)%Z; unfold get_y; simpl; lra.
Qed.

Lemma rows_alternate_direction_witness :
  exists rh q a b,
    row_height [2; 3]%Z = inr rh /\
    _quadtree (self (final_state (map_LEDs_in_zigzag [2; 3]%Z fresh_world)))
    = Some q /\
    nth_error (qt_points q) 0 = Some a /\
    nth_error (qt_points q) 1 = Some b /\
    get_x b < get_x a /\
    (inject_Z 0 * rh <= get_y a /\ get_y a < get_y b /\
     get_y b < inject_Z 1 * rh).
Proof.
  apply (@rows_alternate_direction [2; 3]%Z fresh_world 0 2%Z 0%Z 1%Z);
    [reflexivity | lia | lia].
Defined.

(** ** The caches, whatever they hold *)

Lemma args_eqb_refl (a : list Q) : args_eqb a a = true.
Proof.
  induction a as [|x a IH]; simpl; [reflexivity|].
  rewrite Qeq_bool_refl, IH. reflexivity.
Qed.

Lemma key_eqb_refl (k : key) : key_eqb k k = true.
Proof. unfold key_eqb. rewrite Nat.eqb_refl, args_eqb_refl. reflexivity. Qed.

Lemma lru_find_touch {V : Type} (k : key) (v : V) (c : lru V) :
  lru_find k (lru_touch k v c) = Some v.
Proof. unfold lru_touch. simpl. rewrite key_eqb_refl. reflexivity. Qed.

Lemma lru_find_store {V : Type} (k : key) (v : V) (c : lru V) :
  lru_find k c = None -> lru_find k (lru_store k v c) = Some v.
Proof.
  intros Hf. unfold lru_store. rewrite Hf.
  change maxsize with (S 999). cbn [firstn lru_find].
  rewrite key_eqb_refl. reflexivity.
Qed.

(** The value a decorated call returns is the one its repetition finds. *)
Lemma lru_lookup_repeat {V : Type} (k : key) (v v' : V) (c : lru V) :
  fst (lru_lookup k v' (snd (lru_lookup k v c))) = fst (lru_lookup k v c).
Proof.
  unfold lru_lookup at 2 3. destruct (lru_find k c) as [u|] eqn:Hf; simpl.
  - unfold lru_lookup. rewrite lru_find_touch. reflexivity.
  - unfold lru_lookup. rewrite (@lru_find_store _ k _ _ Hf). reflexivity.
Qed.

Lemma closest_lookup_repeat `{Externals} (id : nat) (L : list LED)
    (cs : Caches) (k : key) (x y m : Q) :
  fst (closest_lookup id L (snd (closest_lookup id L cs k x y m)) k x y m) =
  fst (closest_lookup id L cs k x y m).
Proof.
  unfold closest_lookup at 2 3.
  destruct (lru_find k (closest_cache cs)) as [u|] eqn:Hf; cbn [fst snd].
  - unfold closest_lookup. cbn [closest_cache upd_closest].
    rewrite lru_find_touch. reflexivity.
  - unfold closest_lookup. cbn [closest_cache upd_closest].
    assert (Hc : closest_cache (snd (closest_step_body id L cs x y m))
                 = closest_cache cs) by reflexivity.
    rewrite Hc, (@lru_find_store _ k _ _ Hf). reflexivity.
Qed.

Lemma query_step_repeat `{Externals} (id : nat) (L : list LED) (cs : Caches)
    (q : query) :
  fst (query_step id L (snd (query_step id L cs q)) q) =
  fst (query_step id L cs q).
Proof.
  destruct q as [x y wd h | x y r | x y [m|]]; cbn [query_step fst snd].
  - unfold area_step. cbn [fst snd area_cache upd_area].
    rewrite lru_lookup_repeat. reflexivity.
  - unfold radius_step. cbn [fst snd radius_cache upd_radius].
    rewrite lru_lookup_repeat. reflexivity.
  - rewrite closest_lookup_repeat. reflexivity.
  - rewrite closest_lookup_repeat. reflexivity.
Qed.

(** X4.  A query repeated at once returns what it just returned: the second
    call is answered from the cache, whatever the caches held before. *)
Theorem repeated_query_same_answer `{Externals} (q : query) (w : world) :
  mapped w ->
  exists a w1 w2,
    run_query q w = Returned a w1 /\ run_query q w1 = Returned a w2.
Proof.
  intros Hm.
  destruct (run_query_refines q w Hm) as (w1 & Hr1 & (Hid & Hl & Hm1) & Hc1).
  destruct (run_query_refines q w1 Hm1) as (w2 & Hr2 & _ & _).
  rewrite Hid, Hl, Hc1, query_step_repeat in Hr2.
  eexists. exists w1, w2. split; [exact Hr1 | exact Hr2].
Qed.

Lemma repeated_query_same_answer_witness :
  exists a w1 w2,
    @run_query sample_externals (QRadius (1 # 2) (1 # 2) (1 # 4)) remapped_world
    = Returned a w1 /\
    @run_query sample_externals (QRadius (1 # 2) (1 # 2) (1 # 4)) w1
    = Returned a w2.
Proof.
  apply (@repeated_query_same_answer sample_externals
           (QRadius (1 # 2) (1 # 2) (1 # 4)) remapped_world).
  vm_compute. repeat constructor.
Defined.

Lemma lru_remove_length {V : Type} (k : key) (c : lru V) (v : V) :
  lru_find k c = Some v -> S (length (lru_remove k c)) = length c.
Proof.
  induction c as [|[k' v'] c IH]; simpl; [discriminate|].
  destruct (key_eqb k k'); [reflexivity|].
  intros Hf. simpl. rewrite (IH Hf). reflexivity.
Qed.

Lemma lru_lookup_bounded {V : Type} (k : key) (v : V) (c : lru V) :
  (length c <= maxsize)%nat ->
  (length (snd (lru_lookup k v c)) <= maxsize)%nat.
Proof.
  intros Hc. unfold lru_lookup.
  destruct (lru_find k c) as [u|] eqn:Hf; cbn [snd].
  - unfold lru_touch. simpl. rewrite (@lru_remove_length _ k _ u Hf). exact Hc.
  - unfold lru_store. rewrite Hf. apply firstn_le_length.
Qed.

Lemma closest_lookup_bounded `{Externals} (id : nat) (L : list LED)
    (cs : Caches) (k : key) (x y m : Q) :
  caches_bounded cs -> caches_bounded (snd (closest_lookup id L cs k x y m)).
Proof.
  intros (Ha & Hr & Hc). unfold closest_lookup.
  destruct (lru_find k (closest_cache cs)) as [u|] eqn:Hf; cbn [snd].
  - repeat split; try assumption. simpl.
    rewrite (@lru_remove_length _ k _ u Hf). exact Hc.
  - unfold closest_step_body, area_step. cbn [fst snd].
    repeat split; cbn [area_cache radius_cache closest_cache upd_closest
                       upd_area]; try assumption.
    + apply lru_lookup_bounded. exact Ha.
    + unfold lru_store. rewrite Hf. apply firstn_le_length.
Qed.

Lemma query_step_bounded `{Externals} (id : nat) (L : list LED) (cs : Caches)
    (q : query) :
  caches_bounded cs -> caches_bounded (snd (query_step id L cs q)).
Proof.
  intros Hb. destruct q as [x y wd h | x y r | x y [m|]];
    cbn [query_step fst snd]; try (apply closest_lookup_bounded; exact Hb).
  - destruct Hb as (Ha & Hr & Hc). unfold area_step. cbn [snd].
    repeat split; cbn [area_cache radius_cache closest_cache upd_area];
      try assumption.
    apply lru_lookup_bounded. exact Ha.
  - destruct Hb as (Ha & Hr & Hc). unfold radius_step. cbn [snd].
    repeat split; cbn [area_cache radius_cache closest_cache upd_radius];
      try assumption.
    apply lru_lookup_bounded. exact Hr.
Qed.

(** ** What the methods do to the attributes *)

Lemma collect_after_restore_effect `{Externals} (m : polygon) (w : world) :
  mapped w ->
  query_effect (self w)
    (self (final_state
             (bind restore_if_detached (fun _ => collect_under_mask m) w))).
Proof.
  destruct w as [[id [q|] sv] cs]; unfold mapped; simpl.
  - intros _. run_py. right. simpl. repeat split. discriminate.
  - destruct sv as [vs|]; [|contradiction]. intros _. run_py.
    right. simpl. repeat split. discriminate.
Qed.

Lemma lru_cached_effect {V : Type} (proj : Caches -> lru V)
    (upd : lru V -> Caches -> Caches) (k : key) (body : M world V)
    (w : world) :
  query_effect (self w) (self (final_state (body w))) ->
  query_effect (self w) (self (final_state (lru_cached proj upd k body w))).
Proof.
  intros Hb. unfold lru_cached.
  destruct (lru_find k (proj (caches w))); [left; reflexivity|].
  destruct (body w) as [v w'|e w']; exact Hb.
Qed.

Lemma get_LEDs_in_area_effect `{Externals} (x y width height : Q) (w : world) :
  mapped w ->
  query_effect (self w)
    (self (final_state (get_LEDs_in_area x y width height w))).
Proof.
  intros Hm. unfold get_LEDs_in_area, bind, get_state.
  apply lru_cached_effect. unfold get_LEDs_in_area_body.
  apply collect_after_restore_effect. exact Hm.
Qed.

Lemma run_query_effect `{Externals} (q : query) (w : world) :
  mapped w ->
  query_effect (self w) (self (final_state (run_query q w))).
Proof.
  intros Hm.
  assert (Hret : forall (A B : Type) (m : M world A) (f : A -> B),
             self (final_state (bind m (fun a => ret (f a)) w)) =
             self (final_state (m w))).
  { intros A B m f. unfold bind, ret. destruct (m w); reflexivity. }
  destruct q as [x y wd h | x y r | x y md]; cbn [run_query]; rewrite Hret.
  - apply get_LEDs_in_area_effect. exact Hm.
  - unfold get_LEDs_in_radius, bind, get_state.
    apply lru_cached_effect. unfold get_LEDs_in_radius_body.
    rewrite mask_for_radius_eq by lia.
    apply collect_after_restore_effect. exact Hm.
  - unfold get_closest_LED_index, bind, get_state.
    destruct md as [m|]; apply lru_cached_effect;
      unfold get_closest_LED_index_body; rewrite Hret;
      apply get_LEDs_in_area_effect; exact Hm.
Qed.

(** ** The invariant of an [LEDSpace] *)

Lemma sound_init (id : nat) (cs : Caches) :
  sound (mkWorld (LEDSpace_init id) cs).
Proof. split; [constructor | exact I]. Qed.

Lemma sound_map (l : list Z) (w : world) :
  sound w -> sound (final_state (map_LEDs_in_zigzag l w)).
Proof.
  intros (_ & Hs). destruct l as [|n rest].
  - split; [constructor | exact Hs].
  - destruct (@map_LEDs_in_zigzag_returns (n :: rest) w ltac:(discriminate))
      as (rh & q & _ & Hm & _ & Hsq & _).
    rewrite Hm. split; [|exact Hs].
    unfold mapped. simpl. eapply Forall_impl; [|exact Hsq].
    apply in_unit_square_in_domain.
Qed.

Lemma sound_save `{Externals} (w : world) :
  sound w -> sound (final_state (save_quadtree_values_in_list w)).
Proof.
  destruct w as [[id [q|] [vs|]] cs]; unfold sound, mapped; simpl; tauto.
Qed.

Lemma sound_restore (w : world) :
  sound w -> sound (final_state (restore_quadtree w)).
Proof.
  destruct w as [[id q [vs|]] cs]; unfold sound, mapped; simpl;
    [|tauto].
  intros (_ & Hvs).
  destruct (fold_insert_stored unit_domain_new Hvs) as (Hp & _ & _).
  simpl in Hp. rewrite Hp. split; [exact Hvs | exact I].
Qed.

Lemma sound_query `{Externals} (q : query) (w : world) :
  sound w -> sound (final_state (run_query q w)).
Proof.
  intros (Hm & Hs).
  destruct (run_query_refines q w Hm) as (w' & Hr & (_ & _ & Hm') & _).
  pose proof (run_query_effect q w Hm) as He. rewrite Hr in *.
  cbn [final_state] in *. split; [exact Hm'|].
  destruct He as [->|(_ & _ & Hsv)]; [exact Hs|].
  rewrite Hsv. destruct (_quadtree (self w)); [exact Hs | exact I].
Qed.

Lemma sound_call `{Externals} (c : call) (w : world) :
  sound w -> sound (final_state (run_call c w)).
Proof.
  intros Hs. destruct c as [l| | | |q]; cbn [run_call].
  - apply sound_map. exact Hs.
  - apply sound_save. exact Hs.
  - apply sound_restore. exact Hs.
  - exact Hs.
  - pose proof (sound_query q Hs) as Hq. unfold bind, ret.
    destruct (run_query q w); exact Hq.
Qed.

Lemma sound_after_calls `{Externals} (cs : list call) :
  forall w, sound w -> sound (after_calls cs w).
Proof.
  induction cs as [|c cs IH]; intros w Hs; [exact Hs|].
  cbn [after_calls]. apply IH. apply sound_call. exact Hs.
Qed.

(** X5.  On an [LEDSpace] obtained from [__init__] by any sequence of calls
    of its methods, going on after the exception of a call that raised, the
    three queries and the two transfer methods return normally: no state is
    reachable in which the quadtree and the saved values are both missing,
    and what is stored stays in the domain of the quadtree. *)
Theorem methods_return_on_reachable_states `{Externals} (id : nat)
    (cs0 : Caches) (calls : list call) (q : query) :
  let w := after_calls calls (mkWorld (LEDSpace_init id) cs0) in
  sound w /\
  (exists a w', run_query q w = Returned a w') /\
  (exists w', save_quadtree_values_in_list w = Returned tt w') /\
  (exists w', restore_quadtree w = Returned tt w').
Proof.
  intros w.
  assert (Hs : sound w) by (apply sound_after_calls, sound_init).
  split; [exact Hs|]. destruct Hs as (Hm & _). split; [|split].
  - destruct (run_query_refines q w Hm) as (w' & Hr & _). eauto.
  - destruct (save_refines w Hm) as (w' & Hr & _). eauto.
  - unfold restore_quadtree.
    destruct (_saved_values (self w)); eexists; reflexivity.
Qed.

Lemma caches_bounded_call `{Externals} (c : call) (w : world) :
  sound w -> caches_bounded (caches w) ->
  caches_bounded (caches (final_state (run_call c w))).
Proof.
  intros (Hm & _) Hb. destruct c as [l| | | |q]; cbn [run_call].
  - unfold map_LEDs_in_zigzag. destruct (row_height l); exact Hb.
  - destruct (save_refines w Hm) as (w' & Hr & _ & Hc & _).
    rewrite Hr. cbn [final_state]. rewrite Hc. exact Hb.
  - unfold restore_quadtree. destruct (_saved_values (self w)); exact Hb.
  - repeat split; apply Nat.le_0_l.
  - destruct (run_query_refines q w Hm) as (w' & Hr & _ & Hc).
    unfold bind, ret. rewrite Hr. cbn [final_state]. rewrite Hc.
    apply query_step_bounded. exact Hb.
Qed.

(** X6.  The caches stay bounded: along any sequence of calls on an
    [LEDSpace] obtained from [__init__], none of the three caches ever holds
    more than 1000 entries if none did at the start. *)
Theorem caches_stay_bounded `{Externals} (id : nat) (cs0 : Caches)
    (calls : list call) :
  caches_bounded cs0 ->
  caches_bounded (caches (after_calls calls (mkWorld (LEDSpace_init id) cs0))).
Proof.
  intros Hb.
  assert (G : forall cs w, sound w -> caches_bounded (caches w) ->
                           caches_bounded (caches (after_calls cs w))).
  { induction cs as [|c cs IH]; intros w Hs Hbw; [exact Hbw|].
    cbn [after_calls]. apply IH.
    - apply sound_call. exact Hs.
    - apply caches_bounded_call; assumption. }
  apply G; [apply sound_init | exact Hb].
Qed.

Lemma caches_stay_bounded_witness :
  caches_bounded
    (caches (@after_calls sample_externals
               [CallMap [2; 3]%Z; CallQuery (QArea (1 # 2) (1 # 2) 1 1);
                CallSave; CallQuery (QClosest 0 0 None)]
               (mkWorld (LEDSpace_init 0) empty_caches))).
Proof.
  apply (@caches_stay_bounded sample_externals 0 empty_caches).
  repeat split; apply Nat.le_0_l.
Defined.

(** ** The lifecycle, call by call *)

Lemma lifecycle_query_effect (sp sp' : LEDSpace) :
  lifecycle sp -> query_effect sp sp' -> lifecycle sp'.
Proof.
  intros Hl [->|(_ & Hq & Hs)]; [exact Hl|].
  left. split; [exact Hq|]. rewrite Hs.
  destruct Hl as [(_ & Hsv)|(Hqn & _)].
  - destruct (_quadtree sp); [exact Hsv | reflexivity].
  - rewrite Hqn. reflexivity.
Qed.

(** X7.  Every call keeps the object in one of its two states, attached or
    detached, provided [map_LEDs_in_zigzag] is called on an attached
    object only. *)
Theorem calls_keep_lifecycle `{Externals} (c : call) (w : world) :
  mapped w -> lifecycle (self w) ->
  (forall l, c = CallMap l -> attached (self w)) ->
  lifecycle (self (final_state (run_call c w))).
Proof.
  intros Hm Hl Hmap. destruct c as [l| | | |q]; cbn [run_call].
  - left. apply lifecycle_map_attached. apply (Hmap l). reflexivity.
  - apply lifecycle_save. exact Hl.
  - apply lifecycle_restore. exact Hl.
  - exact Hl.
  - pose proof (run_query_effect q w Hm) as He.
    assert (Hs : self (final_state (bind (run_query q) (fun _ => ret tt) w))
                 = self (final_state (run_query q w))).
    { unfold bind, ret. destruct (run_query q w); reflexivity. }
    rewrite Hs. eapply lifecycle_query_effect; eassumption.
Qed.

Lemma calls_keep_lifecycle_witness :
  lifecycle
    (self (final_state
             (@run_call sample_externals (CallQuery (QClosest 0 0 None))
                (final_state
                   (@save_quadtree_values_in_list sample_externals
                      world_2_3))))).
Proof.
  apply (@calls_keep_lifecycle sample_externals).
  - vm_compute. repeat constructor.
  - right. split; [reflexivity | discriminate].
  - intros l Hl. discriminate Hl.
Defined.

(** X8.  A query on a detached [LEDSpace]: answered from the cache, it
    leaves the object detached; not found in the cache, it is computed from
    the saved Lights and leaves the object attached, the saved list
    cleared. *)
Theorem query_on_detached `{Externals} (x y width height : Q) (w : world) :
  mapped w -> detached (self w) ->
  match lru_find (self_id (self w), [x; y; width; height])
                 (area_cache (caches w)) with
  | Some v =>
      exists w', get_LEDs_in_area x y width height w = Returned v w' /\
                 self w' = self w
  | None =>
      exists w', get_LEDs_in_area x y width height w =
                 Returned (area_of (lights w) x y width height) w' /\
                 attached (self w') /\ lights w' = lights w
  end.
Proof.
  intros Hm (Hq & Hs).
  pose proof (get_LEDs_in_area_refines x y width height w Hm) as Hr.
  pose proof (get_LEDs_in_area_effect x y width height w Hm) as He.
  unfold area_step, lru_lookup in Hr.
  unfold get_LEDs_in_area, bind, get_state, lru_cached in *.
  destruct (lru_find (self_id (self w), [x; y; width; height])
                     (area_cache (caches w))) as [v|].
  - eexists. split; reflexivity.
  - destruct Hr as (w' & Hr & (_ & Hl & _) & _). cbn [fst] in Hr.
    rewrite Hr in *. cbn [final_state] in He.
    exists w'. split; [reflexivity|]. split; [|exact Hl].
    destruct He as [He|(_ & Hq' & Hs')].
    + destruct (area_body_refines x y width height w Hm)
        as (w1 & Hb & _ & _).
      rewrite Hb in Hr. injection Hr as <-.
      destruct (collect_after_restore
                  (box_mask (x - width / 2) (x + width / 2)
                            (y - height / 2) (y + height / 2)) w Hm)
        as (w2 & Hc & _ & _ & Hne).
      unfold get_LEDs_in_area_body in Hb. rewrite Hc in Hb.
      injection Hb as <-. simpl in He. rewrite He in Hne. contradiction.
    + split; [exact Hq'|]. rewrite Hs', Hq. reflexivity.
Qed.

Lemma query_on_detached_witness :
  exists w',
    @get_LEDs_in_area sample_externals (1 # 2) (1 # 2) 1 1
      (final_state (@save_quadtree_values_in_list sample_externals world_2_3))
    = Returned
        (@area_of sample_externals (lights world_2_3) (1 # 2) (1 # 2) 1 1) w'
    /\ attached (self w').
Proof.
  pose proof (@query_on_detached sample_externals (1 # 2) (1 # 2) 1 1
                (final_state (@save_quadtree_values_in_list sample_externals
                                world_2_3))) as H.
  destruct H as (w' & Hr & Ha & _).
  - vm_compute. repeat constructor.
  - split; [reflexivity | discriminate].
  - exists w'. split; [exact Hr | exact Ha].
Defined.

(** ** The box query *)

(** X9.  On caches that agree with the Light set, [get_LEDs_in_area] with a
    non-negative width and height returns exactly the mapped Lights of the
    closed box of that width and height centred on [(x, y)], edges included,
    given that the mask of the quadtree selects the closed box. *)
Theorem area_query_is_the_closed_box `{ES : ExternalsSpec} (x y width height : Q)
    (w : world) :
  mapped w -> coherent w -> 0 <= width -> 0 <= height ->
  exists res w',
    get_LEDs_in_area x y width height w = Returned res w' /\
    forall led,
      In led res <->
      In led (lights w) /\
      x - width / 2 <= get_x led /\ get_x led <= x + width / 2 /\
      y - height / 2 <= get_y led /\ get_y led <= y + height / 2.
Proof.
  intros Hm Hcoh Hw Hh.
  destruct (get_LEDs_in_area_refines x y width height w Hm) as (w' & Hr & _).
  destruct (@area_step_coherent _ _ (self_id (self w)) (lights w) (caches w)
              x y width height Hcoh) as (Hv & _).
  rewrite Hv in Hr. exists (area_of (lights w) x y width height), w'.
  split; [exact Hr|]. intros led.
  rewrite area_of_box by assumption.
  rewrite filter_In, in_box_b_iff. unfold in_box. tauto.
Qed.

Lemma area_query_is_the_closed_box_witness :
  exists res w',
    @get_LEDs_in_area sample_externals 0 (6 # 10) (2 # 10) (2 # 10) world_2_3
    = Returned res w' /\
    forall led,
      In led res <->
      In led (lights world_2_3) /\
      0 - (2 # 10) / 2 <= get_x led /\ get_x led <= 0 + (2 # 10) / 2 /\
      (6 # 10) - (2 # 10) / 2 <= get_y led /\
      get_y led <= (6 # 10) + (2 # 10) / 2.
Proof.
  apply (@area_query_is_the_closed_box sample_externals sample_externals_spec
           0 (6 # 10) (2 # 10) (2 # 10) world_2_3).
  - vm_compute. repeat constructor.
  - apply coherent_empty.
  - discriminate.
  - discriminate.
Defined.

(** ** The scan: ties and negative distances *)

(** The candidate kept so far is the first of the candidates seen that no
    candidate within [m] beats. *)
Lemma closest_step_first (x y m : Q) (seen : list LED)
    (st : option LED * root) (led : LED) :
  scan_invariant x y m seen st ->
  (forall c, fst st = Some c ->
     exists pre post, seen = pre ++ c :: post /\
       forall led', In led' pre -> within x y m led' ->
                    sq_dist x y c < sq_dist x y led') ->
  forall c, fst (closest_step x y m st led) = Some c ->
    exists pre post, seen ++ [led] = pre ++ c :: post /\
      forall led', In led' pre -> within x y m led' ->
                   sq_dist x y c < sq_dist x y led'.
Proof.
  unfold scan_invariant, closest_step. destruct st as [o d]. cbn [fst snd].
  intros Hinv Hfirst c.
  destruct (root_gt (distance_formula x y (get_x led) (get_y led)) m) eqn:Hgt.
  - cbn [fst]. intros Hc. destruct (Hfirst c Hc) as (pre & post & -> & Hpre).
    exists pre, (post ++ [led]). split; [|exact Hpre].
    rewrite <- app_assoc. reflexivity.
  - destruct o as [old|].
    + destruct Hinv as (_ & _ & Hr & Hmin).
      destruct (root_lt (distance_formula x y (get_x led) (get_y led)) d)
        eqn:Hlt; cbn [fst]; intros [= <-].
      * apply Qltb_lt in Hlt. fold (sq_dist x y led) in Hlt. rewrite Hr in Hlt.
        exists seen, []. split; [reflexivity|]. intros led' Hin Hw.
        eapply Qlt_le_trans; [exact Hlt | apply Hmin; assumption].
      * destruct (Hfirst old eq_refl) as (pre & post & -> & Hpre).
        exists pre, (post ++ [led]). split; [|exact Hpre].
        rewrite <- app_assoc. reflexivity.
    + cbn [fst]. intros [= <-]. exists seen, []. split; [reflexivity|].
      intros led' Hin Hw. elim (Hinv led' Hin). exact Hw.
Qed.

Lemma closest_fold_first (x y m : Q) (res : list LED) :
  forall seen st,
    scan_invariant x y m seen st ->
    (forall c, fst st = Some c ->
       exists pre post, seen = pre ++ c :: post /\
         forall led', In led' pre -> within x y m led' ->
                      sq_dist x y c < sq_dist x y led') ->
    forall c, fst (fold_left (closest_step x y m) res st) = Some c ->
      exists pre post, seen ++ res = pre ++ c :: post /\
        forall led', In led' pre -> within x y m led' ->
                     sq_dist x y c < sq_dist x y led'.
Proof.
  induction res as [|led res IH]; intros seen st Hinv Hfirst c; simpl.
  - rewrite app_nil_r. apply Hfirst.
  - replace (seen ++ led :: res) with ((seen ++ [led]) ++ res)
      by (rewrite <- app_assoc; reflexivity).
    apply IH.
    + apply closest_step_invariant. exact Hinv.
    + apply closest_step_first; assumption.
Qed.

(** X10.  Ties go to the first candidate: when the scan of
    [get_closest_LED_index] returns an index, it is that of a candidate
    within [max_distance] such that every candidate before it that is within
    [max_distance] is strictly farther, and no candidate after it is
    closer. *)
Theorem closest_scan_keeps_first_minimum (x y m : Q) (res : list LED) (i : Z) :
  closest_scan x y m res = Some i ->
  exists pre c post,
    res = pre ++ c :: post /\ _index c = i /\ within x y m c /\
    (forall led, In led pre -> within x y m led ->
                 sq_dist x y c < sq_dist x y led) /\
    (forall led, In led post -> within x y m led ->
                 sq_dist x y c <= sq_dist x y led).
Proof.
  unfold closest_scan.
  set (st0 := (None, root_of_Q (inject_Z 9999999)) : option LED * root).
  assert (Hinv0 : scan_invariant x y m [] st0) by (intros led []).
  pose proof (@closest_fold_invariant x y m res [] st0 Hinv0) as Hinv.
  pose proof (@closest_fold_first x y m res [] st0 Hinv0) as Hfirst.
  simpl app in Hinv, Hfirst. unfold scan_invariant in Hinv.
  destruct (fst (fold_left (closest_step x y m) res st0)) as [c|];
    [|discriminate].
  intros [= <-].
  destruct Hinv as (_ & Hw & _ & Hmin).
  destruct (Hfirst ltac:(intros c' Hc'; discriminate Hc') c eq_refl)
    as (pre & post & Hres & Hpre).
  exists pre, c, post. split; [exact Hres|]. split; [reflexivity|].
  split; [exact Hw|]. split; [exact Hpre|].
  intros led Hin Hwl. apply Hmin; [|exact Hwl].
  rewrite Hres. apply in_or_app. right. right. exact Hin.
Qed.

Lemma closest_scan_keeps_first_minimum_witness :
  exists pre c post,
    [mkLED (1 # 10) 0 7; mkLED 0 (1 # 10) 8; mkLED 0 0 9; mkLED 0 0 10]
    = pre ++ c :: post /\ _index c = 9%Z /\ within 0 0 (1 # 2) c.
Proof.
  destruct (@closest_scan_keeps_first_minimum 0 0 (1 # 2)
              [mkLED (1 # 10) 0 7; mkLED 0 (1 # 10) 8; mkLED 0 0 9;
               mkLED 0 0 10] 9%Z eq_refl)
    as (pre & c & post & Hres & Hi & Hw & _).
  exists pre, c, post. auto.
Defined.

(** X11.  A negative [max_distance] finds nothing: on caches that agree with
    the Light set, [get_closest_LED_index] then returns [None], wherever the
    Lights are. *)
Theorem negative_max_distance_finds_nothing `{ES : ExternalsSpec} (x y m : Q)
    (w : world) :
  mapped w -> coherent w -> m < 0 ->
  exists w', get_closest_LED_index x y (Some m) w = Returned None w'.
Proof.
  intros Hm Hcoh Hneg.
  destruct (get_closest_LED_index_returns x y (Some m) Hm Hcoh) as (w' & Hr).
  exists w'. rewrite Hr. f_equal.
  apply (proj2 (closest_of_spec (lights w) x y (Some m))).
  intros led _ (Hpos & _). lra.
Qed.

Lemma negative_max_distance_finds_nothing_witness :
  exists w',
    @get_closest_LED_index sample_externals 0 (1 # 2) (Some (-1 # 10)) world_2_3
    = Returned None w'.
Proof.
  apply (@negative_max_distance_finds_nothing sample_externals
           sample_externals_spec 0 (1 # 2) (-1 # 10) world_2_3).
  - vm_compute. repeat constructor.
  - apply coherent_empty.
  - reflexivity.
Defined.

(** ** The circle mask lies on the circle *)

Lemma square_nonneg (a : Q) : 0 <= a * a.
Proof. nra. Qed.

Lemma circle_externals_unit (a : Q) :
  circle_cos a * circle_cos a + circle_sin a * circle_sin a == 1.
Proof.
  unfold circle_cos, circle_sin.
  pose proof (square_nonneg a) as Ha. field. lra.
Qed.

(** X12.  When [cos] and [sin] satisfy [cos^2 + sin^2 = 1], every vertex of
    the mask that [_mask_for_radius] returns lies on the circle of the given
    radius around [(x, y)]. *)
Theorem mask_vertices_on_circle `{Externals} (x y radius : Q) (n : Z)
    (p : polygon) :
  (forall a, np_cos a * np_cos a + np_sin a * np_sin a == 1) ->
  _mask_for_radius x y radius n = inr p ->
  Forall (fun v => (fst v - x) * (fst v - x) + (snd v - y) * (snd v - y)
                   == radius * radius) p.
Proof.
  intros Hunit Hp.
  assert (Hn : (0 < n)%Z \/ (n <= 0)%Z) by lia. destruct Hn as [Hn|Hn].
  - rewrite (mask_for_radius_eq x y radius Hn) in Hp. injection Hp as <-.
    unfold circle_polygon. apply Forall_map. apply Forall_forall.
    intros theta _. unfold circle_point. cbn [fst snd].
    specialize (Hunit theta).
    transitivity (radius * radius *
                  (np_cos theta * np_cos theta + np_sin theta * np_sin theta));
      [ring | rewrite Hunit; ring].
  - unfold _mask_for_radius in Hp.
    destruct (n =? 0)%Z; [discriminate|].
    replace (Z.to_nat n) with O in Hp by lia. simpl repeat in Hp.
    destruct (np_arange 0 (2 * np_pi) (2 * np_pi / inject_Z n)) as [|t ts].
    + simpl in Hp. injection Hp as <-. constructor.
    + assert (Hfail : forall ts' e,
                fold_left (mask_step x y radius) ts' (inl e) = inl e).
      { induction ts' as [|t' ts' IH]; intros e; [reflexivity | apply IH]. }
      simpl in Hp. rewrite Hfail in Hp. discriminate Hp.
Qed.

Lemma mask_vertices_on_circle_witness :
  exists p,
    @_mask_for_radius circle_externals (1 # 2) (1 # 2) (1 # 4) 10 = inr p /\
    Forall (fun v => (fst v - (1 # 2)) * (fst v - (1 # 2))
                     + (snd v - (1 # 2)) * (snd v - (1 # 2))
                     == (1 # 4) * (1 # 4)) p.
Proof.
  eexists. split.
  - apply (@mask_for_radius_eq circle_externals). reflexivity.
  - apply (@mask_vertices_on_circle circle_externals (1 # 2) (1 # 2) (1 # 4) 10).
    + exact circle_externals_unit.
    + apply (@mask_for_radius_eq circle_externals). reflexivity.
Defined.

(** ** The spacing cache of [Ceiling] *)

Lemma use_spatial_returns `{IC : ceiling.IndexingClasses}
    (mk : ceiling.Ceiling -> exn + ceiling.Indexing)
    (c c1 : ceiling.Ceiling) :
  bind (ceiling.assign_indexing mk)
       (fun _ => ceiling.remember_led_spacing) c = Returned tt c1 ->
  mk c = inr (ceiling._indexing c1) /\
  ceiling._cached_led_spacing c1 =
  Some (ceiling._led_spacing (ceiling._indexing c1)) /\
  ceiling._pixels c1 = ceiling._pixels c.
Proof.
  unfold bind, ceiling.assign_indexing, ceiling.remember_led_spacing.
  destruct (mk c) as [e|ix]; [discriminate|].
  intros [= <-]. simpl. auto.
Qed.

(** X13.  A helper that builds a spatial index ([with_cartesian],
    [with_polar], [with_float_cartesian], [with_float_polar]) restores the
    indexing when its block returns, but keeps the spacing it built: if the
    block leaves the cached spacing alone, the ceiling ends with the previous
    indexing and with the spacing of the indexing the helper constructed,
    ready for the next constructor. *)
Theorem helper_keeps_built_spacing `{IC : ceiling.IndexingClasses}
    (h : ceiling.helper) (block : M ceiling.Ceiling unit)
    (c c' : ceiling.Ceiling) :
  spatial h = true ->
  (forall c1 c2, block c1 = Returned tt c2 ->
                 ceiling._cached_led_spacing c2 =
                 ceiling._cached_led_spacing c1) ->
  ceiling.call_helper h block c = Returned tt c' ->
  exists c1,
    ceiling.use_of h c = Returned tt c1 /\
    ceiling._indexing c' = ceiling._indexing c /\
    ceiling._cached_led_spacing c' =
    Some (ceiling._led_spacing (ceiling._indexing c1)).
Proof.
  intros Hsp Hblock Hcall.
  rewrite call_helper_with_strategy in Hcall.
  unfold ceiling.with_strategy, bind, get_state, put_state in Hcall.
  destruct (ceiling.use_of h c) as [[] c1|e c1] eqn:Hu; [|discriminate].
  destruct (block c1) as [[] c2|e c2] eqn:Hb; [|discriminate].
  injection Hcall as <-. exists c1. split; [reflexivity|].
  split; [reflexivity|]. simpl. rewrite (Hblock c1 c2 Hb).
  destruct h as [| |rows sr|origin rows sr|rows er|origin rows er];
    try discriminate Hsp; cbn [ceiling.use_of] in Hu.
  - destruct (@use_spatial_returns IC _ c c1 Hu) as (_ & Hc & _); exact Hc.
  - unfold ceiling.use_polar in Hu.
    destruct (Nat.eqb (length origin) 2); [|discriminate].
    destruct (@use_spatial_returns IC _ c c1 Hu) as (_ & Hc & _); exact Hc.
  - destruct (@use_spatial_returns IC _ c c1 Hu) as (_ & Hc & _); exact Hc.
  - destruct (@use_spatial_returns IC _ c c1 Hu) as (_ & Hc & _); exact Hc.
Qed.

Lemma helper_keeps_built_spacing_witness :
  exists c1,
    @ceiling.use_of ceiling.sample_classes
      (ceiling.WithCartesian [2; 3]%Z (1 # 5)) ceiling.sample_ceiling
    = Returned tt c1 /\
    @ceiling._indexing ceiling.sample_classes
      (@ceiling.set_indexing ceiling.sample_classes ceiling.Linear c1)
    = ceiling.Linear /\
    @ceiling._cached_led_spacing ceiling.sample_classes
      (@ceiling.set_indexing ceiling.sample_classes ceiling.Linear c1)
    = Some [2; 3]%Z.
Proof.
  destruct (@helper_keeps_built_spacing ceiling.sample_classes
              (ceiling.WithCartesian [2; 3]%Z (1 # 5)) (ret tt)
              ceiling.sample_ceiling
              (@ceiling.set_indexing ceiling.sample_classes ceiling.Linear
                 (@ceiling.mkCeiling ceiling.sample_classes tt
                    (ceiling.Cartesian [2; 3]%Z) (Some [2; 3]%Z))))
    as (c1 & Hu & Hi & Hc).
  - reflexivity.
  - intros c1 c2 [= <-]. reflexivity.
  - reflexivity.
  - exists c1. split; [exact Hu|]. injection Hu as <-.
    split; reflexivity.
Defined.

(** X14.  [with_polar] checks its origin before anything else: with an
    origin that has not exactly two coordinates it raises [AssertionError],
    the block is not run and the ceiling is left as it was, cached spacing
    included. *)
Theorem with_polar_checks_origin `{IC : ceiling.IndexingClasses}
    (block : M ceiling.Ceiling unit) (origin : list Q) (rows : list Z)
    (sr : Q) (c : ceiling.Ceiling) :
  length origin <> 2%nat ->
  ceiling.with_polar block origin rows sr c = Raised AssertionError c.
Proof.
  intros Hlen.
  unfold ceiling.with_polar, ceiling.with_strategy, ceiling.use_polar,
    bind, get_state.
  destruct (Nat.eqb_spec (length origin) 2); [contradiction | reflexivity].
Qed.

Lemma with_polar_checks_origin_witness :
  @ceiling.with_polar ceiling.sample_classes (raise (BlockError 1))
    [1 # 2; 1 # 2; 0] [2; 3]%Z (1 # 5) ceiling.sample_ceiling
  = Raised AssertionError ceiling.sample_ceiling.
Proof.
  apply (@with_polar_checks_origin ceiling.sample_classes
           (raise (BlockError 1)) [1 # 2; 1 # 2; 0] [2; 3]%Z (1 # 5)
           ceiling.sample_ceiling).
  discriminate.
Defined.

(* ===================================================================== *)
(** * The distance comparisons, read in the real numbers *)
(* ===================================================================== *)

Lemma Qsquare_nonneg (a : Q) : 0 <= a * a.
Proof. nra. Qed.

Lemma sq_dist_nonneg (x y : Q) (led : LED) : 0 <= sq_dist x y led.
Proof.
  unfold sq_dist. simpl.
  pose proof (Qsquare_nonneg (get_x led - x)) as Ha.
  pose proof (Qsquare_nonneg (get_y led - y)) as Hb.
  lra.
Qed.

From Stdlib Require Import Reals Qreals.

Lemma Q2R_nonneg (q : Q) : 0 <= q -> (0 <= Q2R q)%R.
Proof. intros H. apply Qle_Rle in H. rewrite RMicromega.Q2R_0 in H. exact H. Qed.

(** [within x y m led] says that the Euclidean distance from [(x, y)] to
    [led], the square root of [sq_dist], is at most [m]. *)
Lemma within_euclidean (x y m : Q) (led : LED) :
  within x y m led <-> (sqrt (Q2R (sq_dist x y led)) <= Q2R m)%R.
Proof.
  pose proof (Q2R_nonneg (sq_dist_nonneg x y led)) as Hs.
  unfold within. fold (sq_dist x y led).
  change ((get_x led - x) * (get_x led - x) + (get_y led - y) * (get_y led - y))
    with (sq_dist x y led).
  split.
  - intros (Hm & Hd). apply Q2R_nonneg in Hm. apply Qle_Rle in Hd.
    rewrite Q2R_mult in Hd. rewrite <- (sqrt_square (Q2R m) Hm).
    apply sqrt_le_1_alt. exact Hd.
  - intros H.
    assert (Hm : (0 <= Q2R m)%R)
      by (eapply Rle_trans; [apply sqrt_pos | exact H]).
    split.
    + apply Rle_Qle. rewrite RMicromega.Q2R_0. exact Hm.
    + apply Rle_Qle. rewrite Q2R_mult, <- (sqrt_sqrt _ Hs).
      apply Rmult_le_compat; try apply sqrt_pos; exact H.
Qed.

(** [root_gt d m] decides [sqrt (radicand d) > m]. *)
Lemma root_gt_euclidean (d : root) (m : Q) :
  0 <= radicand d ->
  (root_gt d m = true <-> (Q2R m < sqrt (Q2R (radicand d)))%R).
Proof.
  intros Hd. pose proof (Q2R_nonneg Hd) as Hs.
  unfold root_gt. rewrite orb_true_iff, !Qltb_lt. split.
  - intros [Hneg|Hlt].
    + apply Qlt_Rlt in Hneg. rewrite RMicromega.Q2R_0 in Hneg.
      eapply Rlt_le_trans; [exact Hneg | apply sqrt_pos].
    + destruct (Qlt_le_dec m 0) as [Hneg|Hpos].
      * apply Qlt_Rlt in Hneg. rewrite RMicromega.Q2R_0 in Hneg.
        eapply Rlt_le_trans; [exact Hneg | apply sqrt_pos].
      * apply Q2R_nonneg in Hpos. apply Qlt_Rlt in Hlt.
        rewrite Q2R_mult in Hlt. rewrite <- (sqrt_square (Q2R m) Hpos).
        apply sqrt_lt_1_alt. split; [|exact Hlt].
        apply Rmult_le_pos; exact Hpos.
  - intros H. destruct (Qlt_le_dec m 0) as [Hneg|Hpos]; [left; exact Hneg|].
    right. apply Q2R_nonneg in Hpos. apply Rlt_Qlt.
    rewrite Q2R_mult, <- (sqrt_sqrt _ Hs).
    apply Rmult_le_0_lt_compat; assumption.
Qed.

(** [root_lt d d'] decides [sqrt (radicand d) < sqrt (radicand d')]. *)
Lemma root_lt_euclidean (d d' : root) :
  0 <= radicand d -> 0 <= radicand d' ->
  (root_lt d d' = true <->
   (sqrt (Q2R (radicand d)) < sqrt (Q2R (radicand d')))%R).
Proof.
  intros Hd Hd'. pose proof (Q2R_nonneg Hd) as Hs.
  pose proof (Q2R_nonneg Hd') as Hs'.
  unfold root_lt. rewrite Qltb_lt. split.
  - intros H. apply sqrt_lt_1; try assumption. apply Qlt_Rlt. exact H.
  - intros H. apply Rlt_Qlt. apply sqrt_lt_0; assumption.
Qed.
